(** * soulsurfer front end: session life cycle, poller, transport and chat

    A shallow embedding of the client's control logic:

    - [Api]: the error normalisation of [frontend/src/api.js]
      ([uploadVideo], [getSession], [sendChat]);
    - [App]: the screen state machine of [App.jsx]
      ([handleSessionCreated], [handleComplete], [handleError],
      [handleReset] and the conditional rendering of the three screens);
    - [ProcessingScreen]: the polling effect of [ProcessingScreen.jsx]
      (the [poll] closure, its timers, the shared [cancelledRef]);
    - [ChatPanel]: [handleSend] of [ChatPanel.jsx] with its state hooks.

    React state hooks become record fields, a handler becomes a function
    on the record, an [await] splits a handler into the part before and
    the part after the promise settles, and timers and outstanding
    requests are finite maps from their identifiers to the closure that
    will run. *)

From Stdlib Require Import Ascii String.
From stdpp Require Import base option list gmap strings pretty.

#[local] Set Warnings "-register-all".

Local Open Scope string_scope.
Local Open Scope list_scope.

(** ** JavaScript values, as far as the sources use them *)

Module Js.

(** A parsed JSON document, plus [undefined] for absent properties.
    Numbers are restricted to integers: [VNum n] is the number that
    [JSON.parse] makes of the integer literal [n], the double nearest
    to it. *)
Inductive value : Type :=
| VUndefined
| VNull
| VBool (b : bool)
| VNum (n : Z)
| VStr (s : string)
| VArr (xs : list value)
| VObj (fields : list (string * value)).

(** What a rejected promise or a [throw] carries.  [Error] is
    [new Error(message)]; the messages of the engine's own errors
    ([TypeError] of a property read on [null], [SyntaxError] of
    [res.json()]) are engine-defined and not modelled. *)
Inductive exn : Type :=
| Error (message : string)
| TypeError
| SyntaxError.

(** The settlement of a promise: fulfilled with a value or rejected. *)
Inductive settled (A : Type) : Type :=
| Fulfilled (a : A)
| Rejected (e : exn).
Arguments Fulfilled {A} a.
Arguments Rejected {A} e.

(** Sequencing through [await]: a rejection skips what follows. *)
#[global] Instance settled_bind : MBind settled := λ A B k m,
  match m with
  | Fulfilled a => k a
  | Rejected e => Rejected e
  end.

(** Own property of an object.  The fields are in the order of the JSON
    text; of a repeated key [JSON.parse] keeps the last value. *)
Fixpoint assoc (fields : list (string * value)) (k : string) : option value :=
  match fields with
  | [] => None
  | (k', v) :: rest => if String.eqb k' k then Some v else assoc rest k
  end.

Definition own (fields : list (string * value)) (k : string) : value :=
  default VUndefined (assoc (rev fields) k).

(** [v.k] for a property name [k] that no prototype defines (the
    sources read [detail], [status], [reply], [session_id]). *)
Definition get (v : value) (k : string) : settled value :=
  match v with
  | VUndefined | VNull => Rejected TypeError
  | VObj fields => Fulfilled (own fields k)
  | _ => Fulfilled VUndefined
  end.

Definition truthy (v : value) : bool :=
  match v with
  | VUndefined | VNull => false
  | VBool b => b
  | VNum n => negb (n =? 0)%Z
  | VStr s => negb (String.eqb s "")
  | VArr _ | VObj _ => true
  end.

(** [a || b] *)
Definition or (a b : value) : value := if truthy a then a else b.

(** [null] or [undefined]: the values that have no properties. *)
Definition nullish (v : value) : bool :=
  match v with VUndefined | VNull => true | _ => false end.

Definition join (sep : string) (parts : list string) : string :=
  match parts with
  | [] => ""
  | p :: ps => fold_left (λ acc q, acc +:+ sep +:+ q) ps p
  end.

(** Whether an object has the own property [k]. *)
Definition has_own (fields : list (string * value)) (k : string) : bool :=
  match assoc fields k with Some _ => true | None => false end.

(** The double nearest to the non-negative integer [m], as an integer;
    [None] is [Infinity].  Below [2^53] every integer is a double;
    above, [m] is rounded to 53 significant bits, halves to even. *)
Definition nearest_double (m : Z) : option Z :=
  if (m <? 2 ^ 53)%Z then Some m
  else
    let sh := (Z.log2 m - 52)%Z in
    let q := Z.shiftr m sh in
    let r := (m - Z.shiftl q sh)%Z in
    let half := Z.shiftl 1 (sh - 1) in
    let q' := if (half <? r)%Z || ((r =? half)%Z && Z.odd q)
              then (q + 1)%Z else q in
    let x := Z.shiftl q' sh in
    if (x <? 2 ^ 1024)%Z then Some x else None.

Definition same_double (a : option Z) (x : Z) : bool :=
  match a with Some y => (y =? x)%Z | None => false end.

(** The digits [s] and their number [k] of [Number::toString] for the
    double [x] with [e] decimal digits: the least [k], from [k] on, with
    a [k]-digit [s] such that [s * 10^(e-k)] has the Number value [x];
    of two such [s] the one nearer to [x]. *)
Fixpoint shortest (fuel : nat) (k x e : Z) : Z * Z :=
  match fuel with
  | O => (x, e)
  | S fuel' =>
      if (e <=? k)%Z then (x, e)
      else
        let p := (10 ^ (e - k))%Z in
        let lo := (x / p)%Z in
        let hi := (lo + 1)%Z in
        let fits t :=
          (10 ^ (k - 1) <=? t)%Z && (t <? 10 ^ k)%Z
          && same_double (nearest_double (t * p)) x in
        let lo_first := (x - lo * p <=? hi * p - x)%Z in
        let first := if lo_first then lo else hi in
        let second := if lo_first then hi else lo in
        if fits first then (first, k)
        else if fits second then (second, k)
        else shortest fuel' (k + 1)%Z x e
  end.

Fixpoint zeros (n : nat) : string :=
  match n with O => "" | S n' => String "0" (zeros n') end.

(** [String(x)] for a positive double [x] that is an integer: the
    digits in full below [10^21], the exponent form from there on. *)
Definition positive_to_string (x : Z) : string :=
  let e := Z.of_nat (String.length (pretty x)) in
  let '(s, k) := shortest 17 1 x e in
  if (e <=? 21)%Z then pretty s +:+ zeros (Z.to_nat (e - k))
  else
    match pretty s with
    | String d rest =>
        String d (if String.eqb rest "" then "" else "." +:+ rest)
        +:+ "e+" +:+ pretty (e - 1)%Z
    | EmptyString => ""
    end.

(** [String(n)] for the number that [JSON.parse] makes of the integer
    literal [n]. *)
Definition number_to_string (n : Z) : string :=
  if (n =? 0)%Z then "0"
  else
    (if (n <? 0)%Z then "-" else "") +:+
    match nearest_double (Z.abs n) with
    | Some x => positive_to_string x
    | None => "Infinity"
    end.

(** [String(v)].  An object is printed by [Object.prototype.toString]
    unless it has an own property [toString]: a parsed value is never
    callable, [valueOf] gives back the object, and the conversion
    throws.  An array is printed by [join], which converts each element
    but [null] and [undefined]. *)
Fixpoint to_string (v : value) : settled string :=
  match v with
  | VUndefined => Fulfilled "undefined"
  | VNull => Fulfilled "null"
  | VBool true => Fulfilled "true"
  | VBool false => Fulfilled "false"
  | VNum n => Fulfilled (number_to_string n)
  | VStr s => Fulfilled s
  | VArr xs =>
      match
        (fix elements (l : list value) : settled (list string) :=
           match l with
           | [] => Fulfilled []
           | x :: rest =>
               match
                 match x with
                 | VUndefined | VNull => Fulfilled ""
                 | _ => to_string x
                 end
               with
               | Fulfilled p =>
                   match elements rest with
                   | Fulfilled ps => Fulfilled (p :: ps)
                   | Rejected e => Rejected e
                   end
               | Rejected e => Rejected e
               end
           end) xs
      with
      | Fulfilled parts => Fulfilled (join "," parts)
      | Rejected e => Rejected e
      end
  | VObj fields =>
      if has_own fields "toString" then Rejected TypeError
      else Fulfilled "[object Object]"
  end.

(** Whether [String(v)] throws. *)
Fixpoint unprintable (v : value) : bool :=
  match v with
  | VArr xs => existsb unprintable xs
  | VObj fields => has_own fields "toString"
  | _ => false
  end.

(** [new Error(v)]: the message is [String(v)], whose exception the
    constructor passes on. *)
Definition new_Error (v : value) : settled exn :=
  match v with
  | VUndefined => Fulfilled (Error "")
  | _ => message ← to_string v; Fulfilled (Error message)
  end.

(** [throw new Error(v)] *)
Definition throw_new_Error {A} (v : value) : settled A :=
  match new_Error v with
  | Fulfilled e => Rejected e
  | Rejected e => Rejected e
  end.

(** White space and line terminators of [String.prototype.trim] among
    the code units below 256, which is what a string holds here: TAB,
    LF, VT, FF, CR, SPACE and NO-BREAK SPACE. *)
Definition is_white (c : ascii) : bool :=
  let n := nat_of_ascii c in
  ((9 <=? n) && (n <=? 13) || (n =? 32) || (n =? 160))%nat.

Fixpoint trimStart (s : string) : string :=
  match s with
  | String c rest => if is_white c then trimStart rest else s
  | EmptyString => EmptyString
  end.

Definition trimEnd (s : string) : string :=
  String.rev (trimStart (String.rev s)).

Definition trim (s : string) : string := trimEnd (trimStart s).

(** Every character of [s] is white space. *)
Fixpoint all_white (s : string) : bool :=
  match s with
  | String c rest => is_white c && all_white rest
  | EmptyString => true
  end.

(** [s] does not begin with white space. *)
Definition starts_clean (s : string) : Prop :=
  match s with
  | String c _ => is_white c = false
  | EmptyString => True
  end.

(** [c.toLowerCase()] of one code unit below 256 (the letters A to Z
    and the capital letters of Latin-1, [U+00D7] not being a letter),
    and [c.toUpperCase()] of one ASCII character. *)
Definition lower (c : ascii) : ascii :=
  let n := nat_of_ascii c in
  if ((65 <=? n) && (n <=? 90)
      || (192 <=? n) && (n <=? 222) && negb (n =? 215))%nat
  then ascii_of_nat (n + 32) else c.

Definition upper (c : ascii) : ascii :=
  let n := nat_of_ascii c in
  if ((97 <=? n) && (n <=? 122))%nat then ascii_of_nat (n - 32) else c.

Fixpoint toLowerCase (s : string) : string :=
  match s with
  | String c rest => String (lower c) (toLowerCase rest)
  | EmptyString => EmptyString
  end.

(** [s.split(sep)] for a one-character separator: never empty. *)
Fixpoint split (sep : ascii) (s : string) : list string :=
  match s with
  | EmptyString => [""]
  | String c rest =>
      if Ascii.eqb c sep then "" :: split sep rest
      else match split sep rest with
           | h :: t => String c h :: t
           | [] => [String c ""]
           end
  end.

(** Whether the character [c] occurs in [s]. *)
Fixpoint occurs (c : ascii) (s : string) : bool :=
  match s with
  | String x rest => Ascii.eqb x c || occurs c rest
  | EmptyString => false
  end.

(** [parts.pop()] of a non-empty array, as a value. *)
Definition pop (parts : list string) : string := List.last parts "".

(** [list.includes(x)] on strings. *)
Definition includes (l : list string) (x : string) : bool :=
  existsb (String.eqb x) l.

End Js.

(** ** [frontend/src/api.js] *)

Module Api.
Import Js.

(** The [Response] of [fetch]: its status code and what [res.json()]
    settles to ([None] when the body is not JSON). *)
Record response : Type := Response {
  status : N;
  body : option value;
}.

(** [res.ok]: the status is in the range 200 to 299. *)
Definition ok (res : response) : bool :=
  (200 <=? status res)%N && (status res <=? 299)%N.

(** [res.json()] *)
Definition json (res : response) : settled value :=
  match body res with
  | Some v => Fulfilled v
  | None => Rejected SyntaxError
  end.

(** [res.json().catch(() => ({}))] *)
Definition json_catch (res : response) : value :=
  match json res with
  | Fulfilled v => v
  | Rejected _ => VObj []
  end.

(** The three operations from the point where [fetch] has settled;
    the request itself is the backend's business. *)
Definition uploadVideo (fetched : settled response) : settled value :=
  res ← fetched;
  if negb (ok res) then
    let data := json_catch res in
    detail ← get data "detail";
    throw_new_Error
      (or detail (VStr ("Upload failed (" +:+ pretty (status res) +:+ ")")))
  else json res.

Definition getSession (fetched : settled response) : settled value :=
  res ← fetched;
  if negb (ok res) then
    let data := json_catch res in
    detail ← get data "detail";
    throw_new_Error
      (or detail (VStr ("Failed to fetch session (" +:+ pretty (status res) +:+ ")")))
  else json res.

Definition sendChat (fetched : settled response) : settled value :=
  res ← fetched;
  if negb (ok res) then
    let data := json_catch res in
    detail ← get data "detail";
    throw_new_Error
      (or detail (VStr ("Chat failed (" +:+ pretty (status res) +:+ ")")))
  else json res.

(** The operations by name, to state what the three have in common. *)
Inductive operation : Type := CreateSession | GetSession | SendChatMessage.

Definition call (op : operation) : settled response → settled value :=
  match op with
  | CreateSession => uploadVideo
  | GetSession => getSession
  | SendChatMessage => sendChat
  end.

(** The text each operation puts before the status code. *)
Definition label (op : operation) : string :=
  match op with
  | CreateSession => "Upload failed"
  | GetSession => "Failed to fetch session"
  | SendChatMessage => "Chat failed"
  end.

Definition synthesized (op : operation) (st : N) : string :=
  label op +:+ " (" +:+ pretty st +:+ ")".

Definition checkHealth (fetched : settled response) : settled value :=
  res ← fetched;
  if negb (ok res) then throw_new_Error (VStr "API is not available")
  else json res.

End Api.

(** ** The session object of the backend contract

    What [getSession] fulfils with on success: [{session_id, status,
    ...report fields}].  The poller reads [status]; the rest travels
    unchanged into the report. *)

Record session : Type := Session {
  session_id : string;
  status : string;
  report_fields : list (string * Js.value);
}.

(** ** [App.jsx]: the lifecycle controller *)

Module App.

(** The values [setScreen] is ever called with. *)
Inductive screen_name : Type := upload | processing | results.

(** The four state hooks of [App] that carry the lifecycle
    ([showEasterEgg] and [konamiIndex] do not interact with them). *)
Record state : Type := State {
  screen : screen_name;
  sessionId : option string;
  report : option session;
  error : string;
}.

(** [useState('upload')], [useState(null)], [useState(null)],
    [useState('')] *)
Definition initial : state :=
  {| screen := upload; sessionId := None; report := None; error := "" |}.

Definition setScreen (v : screen_name) (st : state) : state :=
  {| screen := v; sessionId := sessionId st; report := report st; error := error st |}.
Definition setSessionId (v : option string) (st : state) : state :=
  {| screen := screen st; sessionId := v; report := report st; error := error st |}.
Definition setReport (v : option session) (st : state) : state :=
  {| screen := screen st; sessionId := sessionId st; report := v; error := error st |}.
Definition setError (v : string) (st : state) : state :=
  {| screen := screen st; sessionId := sessionId st; report := report st; error := v |}.

Definition handleSessionCreated (id : string) (st : state) : state :=
  setError "" (setScreen processing (setSessionId (Some id) st)).

Definition handleComplete (data : session) (st : state) : state :=
  setScreen results (setReport (Some data) st).

Definition handleError (msg : string) (st : state) : state :=
  setScreen upload (setError msg st).

Definition handleReset (st : state) : state :=
  setError "" (setReport None (setSessionId None (setScreen upload st))).

(** The child the [AnimatePresence mode="wait"] block renders:
    [screen === 'upload' && ...], [screen === 'processing' && ...],
    [screen === 'results' && report && ...]. *)
Inductive child : Type :=
| ShowUploadForm (banner : bool)
| ShowProcessingScreen (sid : option string)
| ShowResultsScreen (r : session).

Definition render (st : state) : option child :=
  match screen st with
  | upload => Some (ShowUploadForm (negb (String.eqb (error st) "")))
  | processing => Some (ShowProcessingScreen (sessionId st))
  | results =>
      match report st with
      | Some r => Some (ShowResultsScreen r)
      | None => None
      end
  end.

(** What the rendered children can call back. *)
Inductive event : Type :=
| SessionCreated (id : string)   (* UploadForm: onSessionCreated(session.session_id) *)
| DismissError                   (* the banner's button: setError('') *)
| Completed (data : session)     (* ProcessingScreen: onComplete(data) *)
| Failed (msg : string)          (* ProcessingScreen: onError(msg) *)
| Reset.                         (* ResultsScreen: onReset *)

Definition handle (ev : event) (st : state) : state :=
  match ev with
  | SessionCreated id => handleSessionCreated id st
  | DismissError => setError "" st
  | Completed data => handleComplete data st
  | Failed msg => handleError msg st
  | Reset => handleReset st
  end.

(** An event can occur when the child that raises it is on screen. *)
Definition enabled (st : state) (ev : event) : bool :=
  match render st, ev with
  | Some (ShowUploadForm _), SessionCreated _ => true
  | Some (ShowUploadForm banner), DismissError => banner
  | Some (ShowProcessingScreen _), (Completed _ | Failed _) => true
  | Some (ShowResultsScreen _), Reset => true
  | _, _ => false
  end.

Inductive reachable : state → Prop :=
| reachable_initial : reachable initial
| reachable_handle st ev :
    reachable st → enabled st ev = true → reachable (handle ev st).

End App.

(** ** [ProcessingScreen.jsx]: the session poller *)

Module ProcessingScreen.

Definition POLL_INTERVAL_MS : N := 2500.

Definition FAILED_MESSAGE : string :=
  "Processing failed. Please try again with a different video.".

(** The [poll] function of one run of the polling effect.  It closes
    over the [sessionId] (and the callbacks) of the render that ran the
    effect; [run] numbers the effect runs of the component. *)
Record closure : Type := Closure {
  run : nat;
  sessionId : string;
}.

(** A pending [setTimeout(poll, delay)]. *)
Record timer : Type := Timer {
  delay : N;
  callback : closure;
}.

(** How the promise of [getSession(sessionId)] settles: with the session
    object, or rejected with an error whose [message] is given. *)
Inductive outcome : Type :=
| Resolved (data : session)
| Rejected (message : string).

Inductive call : Type :=
| OnComplete (data : session)
| OnError (msg : string).

(** One mounted [ProcessingScreen]: the single [cancelledRef] of the
    component, the timers and requests its [poll] closures have
    outstanding, and the callbacks invoked so far, each with the run of
    the closure that made the call. *)
Record component : Type := Component {
  cancelledRef : bool;
  effects : nat;
  initialDelay : option nat;
  timers : gmap nat timer;
  next_timer : nat;
  requests : gmap nat closure;
  next_request : nat;
  calls : list (nat * call);
}.

(** After the first render, before any effect has run:
    [useRef(false)]. *)
Definition rendered : component :=
  {| cancelledRef := false; effects := 0; initialDelay := None;
     timers := ∅; next_timer := 0; requests := ∅; next_request := 0;
     calls := [] |}.

Definition set_cancelled (b : bool) (c : component) : component :=
  {| cancelledRef := b; effects := effects c; initialDelay := initialDelay c;
     timers := timers c; next_timer := next_timer c;
     requests := requests c; next_request := next_request c;
     calls := calls c |}.

(** [setTimeout(f, ms)]: returns the fresh timer id. *)
Definition setTimeout (f : closure) (ms : N) (c : component) : nat * component :=
  (next_timer c,
   {| cancelledRef := cancelledRef c; effects := effects c;
      initialDelay := initialDelay c;
      timers := <[next_timer c := Timer ms f]> (timers c);
      next_timer := S (next_timer c);
      requests := requests c; next_request := next_request c;
      calls := calls c |}).

(** [clearTimeout(id)]: no effect on a timer that fired or was cleared. *)
Definition clearTimeout (id : option nat) (c : component) : component :=
  match id with
  | None => c
  | Some t =>
      {| cancelledRef := cancelledRef c; effects := effects c;
         initialDelay := initialDelay c;
         timers := delete t (timers c);
         next_timer := next_timer c;
         requests := requests c; next_request := next_request c;
         calls := calls c |}
  end.

Definition take_timer (t : nat) (c : component) : component :=
  {| cancelledRef := cancelledRef c; effects := effects c;
     initialDelay := initialDelay c;
     timers := delete t (timers c); next_timer := next_timer c;
     requests := requests c; next_request := next_request c;
     calls := calls c |}.

(** [getSession(sessionId)] is issued; [poll] is suspended at [await]. *)
Definition issue (f : closure) (c : component) : component :=
  {| cancelledRef := cancelledRef c; effects := effects c;
     initialDelay := initialDelay c;
     timers := timers c; next_timer := next_timer c;
     requests := <[next_request c := f]> (requests c);
     next_request := S (next_request c);
     calls := calls c |}.

Definition take_request (r : nat) (c : component) : component :=
  {| cancelledRef := cancelledRef c; effects := effects c;
     initialDelay := initialDelay c;
     timers := timers c; next_timer := next_timer c;
     requests := delete r (requests c); next_request := next_request c;
     calls := calls c |}.

Definition invoke (f : closure) (k : call) (c : component) : component :=
  {| cancelledRef := cancelledRef c; effects := effects c;
     initialDelay := initialDelay c;
     timers := timers c; next_timer := next_timer c;
     requests := requests c; next_request := next_request c;
     calls := calls c ++ [(run f, k)] |}.

(** [poll] up to its [await]. *)
Definition poll (f : closure) (c : component) : component :=
  if cancelledRef c then c else issue f c.

(** [poll] from its [await] on, once the promise has settled. *)
Definition poll_resume (f : closure) (o : outcome) (c : component) : component :=
  match o with
  | Resolved data =>
      if cancelledRef c then c
      else if String.eqb (status data) "completed" then
        invoke f (OnComplete data) c
      else if String.eqb (status data) "failed" then
        invoke f (OnError FAILED_MESSAGE) c
      else snd (setTimeout f POLL_INTERVAL_MS c)
  | Rejected message =>
      if negb (cancelledRef c) then invoke f (OnError message) c else c
  end.

(** The body of the polling effect for the props of the current render. *)
Definition effect (sid : string) (c : component) : component :=
  let c := set_cancelled false c in
  let f := Closure (effects c) sid in
  let '(id, c) := setTimeout f 1500 c in
  {| cancelledRef := cancelledRef c; effects := S (effects c);
     initialDelay := Some id;
     timers := timers c; next_timer := next_timer c;
     requests := requests c; next_request := next_request c;
     calls := calls c |}.

(** The function the effect returns. *)
Definition cleanup (c : component) : component :=
  clearTimeout (initialDelay c) (set_cancelled true c).

(** What can happen to a mounted component.  React runs [Effect] after
    the first render; on a change of [sessionId], [onComplete] or
    [onError] it runs [Cleanup] and then [Effect] with the new props;
    on unmount it runs [Cleanup]. *)
Inductive event : Type :=
| Effect (sid : string)
| Cleanup
| Tick (t : nat)
| Settle (r : nat) (o : outcome).

Definition step (c : component) (ev : event) : component :=
  match ev with
  | Effect sid => effect sid c
  | Cleanup => cleanup c
  | Tick t =>
      match timers c !! t with
      | Some tm => poll (callback tm) (take_timer t c)
      | None => c
      end
  | Settle r o =>
      match requests c !! r with
      | Some f => poll_resume f o (take_request r c)
      | None => c
      end
  end.

Definition exec (c : component) (evs : list event) : component :=
  fold_left step evs c.

(** Mounting with a session id. *)
Definition mount (sid : string) : component := step rendered (Effect sid).

(** One round of an undisturbed run: the scheduled timer fires and the
    poll it issues settles with [o].  When nothing is scheduled no poll
    is issued and [o] is never asked for. *)
Definition answer (c : component) (o : outcome) : component :=
  match fst <$> head (map_to_list (timers c)) with
  | None => c
  | Some t =>
      let c1 := step c (Tick t) in
      match fst <$> head (map_to_list (requests c1)) with
      | None => c1
      | Some r => step c1 (Settle r o)
      end
  end.

Definition feed (c : component) (os : list outcome) : component :=
  fold_left answer os c.

(** A timer of some run is waiting and nothing else is outstanding. *)
Definition waiting (c : component) : Prop :=
  (∃ t tm, timers c = {[ t := tm ]}) ∧ requests c = ∅.

(** Nothing is outstanding: no timer will fire, no request will settle. *)
Definition quiescent (c : component) : Prop :=
  timers c = ∅ ∧ requests c = ∅.

(** An undisturbed run of the first effect for [sid] that has seen [n]
    unfinished polls: timer [n] is scheduled, with the initial delay
    before the first poll and the polling interval afterwards. *)
Definition polling (sid : string) (n : nat) : component :=
  {| cancelledRef := false; effects := 1; initialDelay := Some 0;
     timers := {[ n := Timer (match n with 0 => 1500 | S _ => POLL_INTERVAL_MS end)
                          (Closure 0 sid) ]};
     next_timer := S n; requests := ∅; next_request := n; calls := [] |}.

(** The same run while poll [n] is awaiting its response. *)
Definition awaiting (sid : string) (n : nat) : component :=
  {| cancelledRef := false; effects := 1; initialDelay := Some 0;
     timers := ∅; next_timer := S n;
     requests := {[ n := Closure 0 sid ]};
     next_request := S n; calls := [] |}.

(** The same run after poll [n] ended it with the callback [k]. *)
Definition finished (n : nat) (k : call) : component :=
  {| cancelledRef := false; effects := 1; initialDelay := Some 0;
     timers := ∅; next_timer := S n; requests := ∅; next_request := S n;
     calls := [(0, k)] |}.

(** The states of an undisturbed run of the first effect. *)
Inductive undisturbed (sid : string) : component → Prop :=
| undisturbed_polling n : undisturbed sid (polling sid n)
| undisturbed_awaiting n : undisturbed sid (awaiting sid n)
| undisturbed_finished n k : undisturbed sid (finished n k).

(** Events of the environment alone: no effect is run or cleaned up. *)
Definition is_effect (ev : event) : bool :=
  match ev with Effect _ => true | _ => false end.

Definition is_lifecycle (ev : event) : bool :=
  match ev with Effect _ | Cleanup => true | _ => false end.

(** The backend has not finished: [pending] or [processing]. *)
Definition in_progress (o : outcome) : Prop :=
  match o with
  | Resolved data => status data = "pending" ∨ status data = "processing"
  | Rejected _ => False
  end.




(** The callback a settled poll asks for, if it ends the polling. *)
Definition verdict (o : outcome) : option call :=
  match o with
  | Resolved data =>
      if String.eqb (status data) "completed" then Some (OnComplete data)
      else if String.eqb (status data) "failed" then Some (OnError FAILED_MESSAGE)
      else None
  | Rejected message => Some (OnError message)
  end.

(** The component is live, the one timer scheduled belongs to the
    closure [f], and no request is outstanding. *)
Definition scheduled (f : closure) (c : component) : Prop :=
  cancelledRef c = false
  ∧ (∃ t d, timers c = {[ t := Timer d f ]})
  ∧ requests c = ∅.

(** How many entries of a table satisfy [P]. *)
Definition count {A} (P : A → Prop) `{!∀ x, Decision (P x)}
    (m : gmap nat A) : nat :=
  size (filter (λ kv : nat * A, P kv.2) m).

(** The timers and requests that closures of run [r] have outstanding. *)
Definition pending (r : nat) (c : component) : nat :=
  count (λ tm : timer, run (callback tm) = r) (timers c)
  + count (λ f : closure, run f = r) (requests c).

(** Identifiers in use are below the next fresh one, every closure
    belongs to a run that has started, and no run has two polls
    outstanding. *)
Definition well_formed (c : component) : Prop :=
  (∀ t tm, timers c !! t = Some tm →
     t < next_timer c ∧ run (callback tm) < effects c)
  ∧ (∀ q f, requests c !! q = Some f →
       q < next_request c ∧ run f < effects c)
  ∧ (∀ r, (pending r c ≤ 1)%nat).

End ProcessingScreen.


(** ** [ChatPanel.jsx]: the chat session *)

Module ChatPanel.

Inductive role : Type := user | assistant.

Record message : Type := Message {
  msg_role : role;
  content : string;
}.

(** A [sendChat(sessionId, text)] whose promise has not settled. *)
Record request : Type := Request {
  req_session : string;
  req_text : string;
}.

(** The state hooks of the panel and, beside them, the requests that
    are outstanding. *)
Record panel : Type := Panel {
  messages : list message;
  input : string;
  loading : bool;
  error : string;
  outstanding : list request;
}.

(** [useState([])], [useState('')], [useState(false)], [useState('')] *)
Definition initial : panel :=
  {| messages := []; input := ""; loading := false; error := "";
     outstanding := [] |}.

(** What a handler does, one statement at a time. *)
Inductive action : Type :=
| PreventDefault
| SetInput (v : string)
| SetError (v : string)
| AppendMessage (m : message)      (* setMessages(prev => [...prev, m]) *)
| SetLoading (v : bool)
| SendChat (sid text : string)     (* the call sendChat(sessionId, text) *)
| FocusInput.

Definition perform (p : panel) (a : action) : panel :=
  match a with
  | PreventDefault | FocusInput => p
  | SetInput v =>
      {| messages := messages p; input := v; loading := loading p;
         error := error p; outstanding := outstanding p |}
  | SetError v =>
      {| messages := messages p; input := input p; loading := loading p;
         error := v; outstanding := outstanding p |}
  | AppendMessage m =>
      {| messages := messages p ++ [m]; input := input p; loading := loading p;
         error := error p; outstanding := outstanding p |}
  | SetLoading v =>
      {| messages := messages p; input := input p; loading := v;
         error := error p; outstanding := outstanding p |}
  | SendChat sid text =>
      {| messages := messages p; input := input p; loading := loading p;
         error := error p; outstanding := outstanding p ++ [Request sid text] |}
  end.

Definition perform_all (p : panel) (acts : list action) : panel :=
  fold_left perform acts p.

(** [handleSend(e)] up to its [await]; [e] is absent when the call
    comes from [handleKeyDown].  It reads [input] and [loading] of the
    render it belongs to. *)
Definition handleSend (e : bool) (sessionId : string) (p : panel) : list action :=
  (if e then [PreventDefault] else []) ++
  let text := Js.trim (input p) in
  if String.eqb text "" || loading p then []
  else [ SetInput ""; SetError "";
         AppendMessage (Message user text);
         SetLoading true;
         SendChat sessionId text ].

(** How the promise of [sendChat] settles: with [data.reply], or
    rejected with an error whose [message] is given. *)
Inductive outcome : Type :=
| Replied (reply : string)
| Rejected (message : string).

(** [handleSend] from its [await] on: [try] continuation or [catch],
    then [finally]. *)
Definition handleSend_resume (o : outcome) : list action :=
  match o with
  | Replied reply => [AppendMessage (Message assistant reply)]
  | Rejected message => [SetError message]
  end ++ [SetLoading false; FocusInput].

Definition take_request (i : nat) (p : panel) : panel :=
  {| messages := messages p; input := input p; loading := loading p;
     error := error p; outstanding := delete i (outstanding p) |}.

(** What can happen to a mounted panel with the prop [sessionId]. *)
Inductive event : Type :=
| Change (v : string)            (* typing: onChange, unless the field is disabled *)
| Submit                         (* the form's onSubmit *)
| Enter                          (* handleKeyDown on Enter without Shift *)
| Dismiss                        (* the error's button: setError('') *)
| Settle (i : nat) (o : outcome).  (* the i-th outstanding request settles *)

Definition step (sessionId : string) (p : panel) (ev : event) : panel :=
  match ev with
  | Change v => if loading p then p else perform p (SetInput v)
  | Submit => perform_all p (handleSend true sessionId p)
  | Enter => perform_all p (PreventDefault :: handleSend false sessionId p)
  | Dismiss => perform p (SetError "")
  | Settle i o =>
      match outstanding p !! i with
      | Some _ => perform_all (take_request i p) (handleSend_resume o)
      | None => p
      end
  end.

Definition exec (sessionId : string) (p : panel) (evs : list event) : panel :=
  fold_left (step sessionId) evs p.

(** A send is accepted when the trimmed input is not empty and no send
    is outstanding. *)
Definition accepted (p : panel) : Prop :=
  Js.trim (input p) ≠ "" ∧ loading p = false.

(** Statement [a] comes before statement [b] in [acts]. *)
Definition before (a b : action) (acts : list action) : Prop :=
  ∃ l1 l2 l3 : list action, acts = (l1 ++ a :: l2 ++ b :: l3)%list.

Definition is_request (a : action) : bool :=
  match a with SendChat _ _ => true | _ => false end.

Definition changes_state (a : action) : bool :=
  match a with PreventDefault | FocusInput => false | _ => true end.

Definition is_settle (ev : event) : bool :=
  match ev with Settle _ _ => true | _ => false end.

(** The statements of an accepted [handleSend] after [preventDefault]. *)
Definition sent (sessionId : string) (p : panel) : list action :=
  [ SetInput ""; SetError "";
    AppendMessage (Message user (Js.trim (input p)));
    SetLoading true;
    SendChat sessionId (Js.trim (input p)) ].

(** [loading] is set exactly while one request is outstanding. *)
Definition in_step (p : panel) : Prop :=
  length (outstanding p) = if loading p then 1 else 0.

(** A user message holds text: it is not empty and has white space at
    neither end. *)
Definition tidy (m : message) : Prop :=
  msg_role m = user →
  content m ≠ "" ∧ Js.starts_clean (content m)
  ∧ Js.starts_clean (String.rev (content m)).

Definition is_user (m : message) : bool :=
  match msg_role m with user => true | assistant => false end.

(** Every assistant message of [l] comes right after a user message;
    [prev_user] tells whether the message before [l] is the user's. *)
Fixpoint paired (prev_user : bool) (l : list message) : bool :=
  match l with
  | [] => true
  | m :: rest =>
      if is_user m then paired true rest
      else prev_user && paired false rest
  end.

(** Whether the last message is the user's ([prev_user] when there is
    none). *)
Fixpoint ends_with_user (prev_user : bool) (l : list message) : bool :=
  match l with
  | [] => prev_user
  | m :: rest => ends_with_user (is_user m) rest
  end.

(** While a reply is awaited the log ends with the question asked. *)
Definition well_paired (p : panel) : Prop :=
  in_step p
  ∧ paired false (messages p) = true
  ∧ (loading p = true → ends_with_user false (messages p) = true).

End ChatPanel.

(** ** [App.jsx]: the Konami code listener *)

Module Konami.

Definition KONAMI_CODE : list string :=
  [ "ArrowUp"; "ArrowUp"; "ArrowDown"; "ArrowDown";
    "ArrowLeft"; "ArrowRight"; "ArrowLeft"; "ArrowRight";
    "KeyB"; "KeyA" ].

(** [konamiIndex.current], [showEasterEgg], and how many of the
    [setTimeout(() => setShowEasterEgg(false), 3000)] are pending. *)
Record state : Type := State {
  konamiIndex : nat;
  showEasterEgg : bool;
  hide_timers : nat;
}.

Definition initial : state :=
  {| konamiIndex := 0; showEasterEgg := false; hide_timers := 0 |}.

(** [e.code === KONAMI_CODE[i]]: past the end the array gives
    [undefined], which equals no key code. *)
Definition matches (code : string) (i : nat) : bool :=
  match KONAMI_CODE !! i with
  | Some k => String.eqb code k
  | None => false
  end.

Definition handleKeyDown (code : string) (st : state) : state :=
  if matches code (konamiIndex st) then
    let i := S (konamiIndex st) in
    if (i =? length KONAMI_CODE)%nat then
      {| konamiIndex := 0; showEasterEgg := true;
         hide_timers := S (hide_timers st) |}
    else
      {| konamiIndex := i; showEasterEgg := showEasterEgg st;
         hide_timers := hide_timers st |}
  else
    {| konamiIndex := 0; showEasterEgg := showEasterEgg st;
       hide_timers := hide_timers st |}.

Inductive event : Type :=
| KeyDown (code : string)
| HideTimer.                  (* one of the pending timers fires *)

Definition step (st : state) (ev : event) : state :=
  match ev with
  | KeyDown code => handleKeyDown code st
  | HideTimer =>
      match hide_timers st with
      | 0 => st
      | S n => {| konamiIndex := konamiIndex st; showEasterEgg := false;
                  hide_timers := n |}
      end
  end.

Definition exec (st : state) (evs : list event) : state := fold_left step evs st.

Definition type (st : state) (codes : list string) : state :=
  fold_left (λ st code, handleKeyDown code st) codes st.

End Konami.

(** ** [UploadForm.jsx] *)

Module UploadForm.
Import Js.

Definition ALLOWED_EXTENSIONS : list string :=
  [".mp4"; ".mov"; ".avi"; ".mkv"; ".webm"].

Definition MAX_SIZE_MB : N := 100.

(** What the form reads of a [File]: its name and its size in bytes. *)
Record file : Type := File {
  name : string;
  size : N;
}.

Definition dquote : string := String (ascii_of_nat 34) EmptyString.

(** [(size / 1024 / 1024).toFixed(1)].  Both divisions are by powers of
    two and exact, so the result is [size * 10 / 2^20] rounded to the
    nearest integer, halves upwards, with a point before its last digit. *)
Definition toFixed1_MB (sz : N) : string :=
  let n := ((sz * 10 + 524288) / 1048576)%N in
  pretty (n / 10)%N +:+ "." +:+ pretty (n mod 10)%N.

Definition extension (f : file) : string :=
  "." +:+ toLowerCase (pop (split "." (name f))).

(** [null] is [None]; otherwise the message to show. *)
Definition validateFile (f : file) : option string :=
  let ext := extension f in
  if negb (includes ALLOWED_EXTENSIONS ext) then
    Some ("Unsupported format " +:+ dquote +:+ ext +:+ dquote +:+
          ". Allowed: " +:+ join ", " ALLOWED_EXTENSIONS)
  else if (MAX_SIZE_MB * 1024 * 1024 <? size f)%N then
    Some ("File too large (" +:+ toFixed1_MB (size f) +:+ " MB). Max: " +:+
          pretty MAX_SIZE_MB +:+ " MB")
  else None.

(** One part of the multipart body [uploadVideo] builds. *)
Inductive part : Type :=
| Blob (f : file)
| Text (s : string).

(** [x || null] on a string. *)
Definition or_null (x : string) : option string :=
  if String.eqb x "" then None else Some x.

(** [if (x) formData.append(key, x)] for [x] a string or [null]. *)
Definition append_if (key : string) (x : option string)
    (fd : list (string * part)) : list (string * part) :=
  match x with
  | Some v => if String.eqb v "" then fd else fd ++ [(key, Text v)]
  | None => fd
  end.

(** The [FormData] of [uploadVideo(file, surferName, skillLevel)] in
    [api.js]. *)
Definition formData (f : file) (surferName skillLevel : option string)
    : list (string * part) :=
  append_if "skill_level" skillLevel
    (append_if "surfer_name" surferName [("video", Blob f)]).

(** An [uploadVideo] call whose promise has not settled. *)
Record request : Type := Request {
  req_file : file;
  req_name : option string;
  req_skill : option string;
}.

(** The state hooks of the form (the ripples of the button aside), the
    uploads outstanding, and the ids handed to [onSessionCreated]. *)
Record form : Type := Form {
  file_ : option file;
  surferName : string;
  skillLevel : string;
  dragging : bool;
  uploading : bool;
  error : string;
  outstanding : list request;
  created : list string;
}.

Definition initial : form :=
  {| file_ := None; surferName := ""; skillLevel := ""; dragging := false;
     uploading := false; error := ""; outstanding := []; created := [] |}.

Definition handleFile (f : file) (st : form) : form :=
  match validateFile f with
  | Some err =>
      {| file_ := None; surferName := surferName st; skillLevel := skillLevel st;
         dragging := dragging st; uploading := uploading st; error := err;
         outstanding := outstanding st; created := created st |}
  | None =>
      {| file_ := Some f; surferName := surferName st; skillLevel := skillLevel st;
         dragging := dragging st; uploading := uploading st; error := "";
         outstanding := outstanding st; created := created st |}
  end.

Definition setDragging (b : bool) (st : form) : form :=
  {| file_ := file_ st; surferName := surferName st; skillLevel := skillLevel st;
     dragging := b; uploading := uploading st; error := error st;
     outstanding := outstanding st; created := created st |}.

(** [files[0]] is [None] when the list is empty. *)
Definition handleDrop (f : option file) (st : form) : form :=
  let st := setDragging false st in
  match f with Some f => handleFile f st | None => st end.

Definition handleInputChange (f : option file) (st : form) : form :=
  match f with Some f => handleFile f st | None => st end.

(** [handleSubmit] up to its [await]. *)
Definition handleSubmit (st : form) : form :=
  match file_ st with
  | None => st
  | Some f =>
      {| file_ := file_ st; surferName := surferName st; skillLevel := skillLevel st;
         dragging := dragging st; uploading := true; error := "";
         outstanding := outstanding st ++
           [Request f (or_null (surferName st)) (or_null (skillLevel st))];
         created := created st |}
  end.

(** How the promise of [uploadVideo] settles: with a session whose
    [session_id] is given, or rejected with an error's [message]. *)
Inductive outcome : Type :=
| Created (session_id : string)
| Rejected (message : string).

(** [handleSubmit] from its [await] on. *)
Definition handleSubmit_resume (o : outcome) (st : form) : form :=
  match o with
  | Created id =>
      {| file_ := file_ st; surferName := surferName st; skillLevel := skillLevel st;
         dragging := dragging st; uploading := uploading st; error := error st;
         outstanding := outstanding st; created := created st ++ [id] |}
  | Rejected message =>
      {| file_ := file_ st; surferName := surferName st; skillLevel := skillLevel st;
         dragging := dragging st; uploading := false; error := message;
         outstanding := outstanding st; created := created st |}
  end.

Definition take_request (i : nat) (st : form) : form :=
  {| file_ := file_ st; surferName := surferName st; skillLevel := skillLevel st;
     dragging := dragging st; uploading := uploading st; error := error st;
     outstanding := delete i (outstanding st); created := created st |}.

Definition setSurferName (v : string) (st : form) : form :=
  {| file_ := file_ st; surferName := v; skillLevel := skillLevel st;
     dragging := dragging st; uploading := uploading st; error := error st;
     outstanding := outstanding st; created := created st |}.

Definition setSkillLevel (v : string) (st : form) : form :=
  {| file_ := file_ st; surferName := surferName st; skillLevel := v;
     dragging := dragging st; uploading := uploading st; error := error st;
     outstanding := outstanding st; created := created st |}.

(** What can happen to a mounted form.  The name field and the skill
    select are [disabled={uploading}], the submit button is
    [disabled={!file || uploading}]; the drop zone and the file input
    stay live. *)
Inductive event : Type :=
| Drop (f : option file)
| Choose (f : option file)
| DragOver
| DragLeave
| TypeName (v : string)
| SelectSkill (v : string)
| Submit
| Settle (i : nat) (o : outcome).

Definition step (st : form) (ev : event) : form :=
  match ev with
  | Drop f => handleDrop f st
  | Choose f => handleInputChange f st
  | DragOver => setDragging true st
  | DragLeave => setDragging false st
  | TypeName v => if uploading st then st else setSurferName v st
  | SelectSkill v => if uploading st then st else setSkillLevel v st
  | Submit => if uploading st then st else handleSubmit st
  | Settle i o =>
      match outstanding st !! i with
      | Some _ => handleSubmit_resume o (take_request i st)
      | None => st
      end
  end.

Definition exec (st : form) (evs : list event) : form := fold_left step evs st.

(** [uploading] is set exactly while an upload is outstanding or has
    produced its session. *)
Definition in_step (st : form) : Prop :=
  (length (outstanding st) + length (created st) =
     if uploading st then 1 else 0)%nat.

End UploadForm.

(** ** [ErrorCard.jsx]: the metric's display name *)

Module ErrorCard.
Import Js.

(** [\w] *)
Definition is_word (c : ascii) : bool :=
  let n := nat_of_ascii c in
  ((48 <=? n) && (n <=? 57) || (65 <=? n) && (n <=? 90)
   || (97 <=? n) && (n <=? 122) || (n =? 95))%nat.

(** [.replace(/_/g, ' ')] *)
Fixpoint replace_underscores (s : string) : string :=
  match s with
  | String c rest =>
      String (if Ascii.eqb c "_" then " "%char else c) (replace_underscores rest)
  | EmptyString => EmptyString
  end.

(** [.replace(/\b\w/g, c => c.toUpperCase())]: a word character is
    replaced when the character before it is not a word character
    ([prev] tells whether it is; there is none at the start). *)
Fixpoint capitalize (prev : bool) (s : string) : string :=
  match s with
  | String c rest =>
      String (if is_word c && negb prev then upper c else c)
             (capitalize (is_word c) rest)
  | EmptyString => EmptyString
  end.

Definition formatMetricName (metric : string) : string :=
  capitalize false (replace_underscores metric).

Fixpoint has_underscore (s : string) : bool :=
  match s with
  | String c rest => Ascii.eqb c "_" || has_underscore rest
  | EmptyString => false
  end.

End ErrorCard.

(** ** From the upload to the report: [App] with its [ProcessingScreen] *)

Module Flow.

(** [<ProcessingScreen onComplete={handleComplete} onError={handleError}/>]:
    the callbacks the poller has invoked, applied to the controller. *)
Definition deliver (cs : list (nat * ProcessingScreen.call)) (st : App.state)
    : App.state :=
  fold_left
    (λ st c, match c.2 with
             | ProcessingScreen.OnComplete data => App.handleComplete data st
             | ProcessingScreen.OnError msg => App.handleError msg st
             end)
    cs st.

(** The upload form reports the session [id]; the controller shows the
    processing screen, whose poller sees the responses [os]. *)
Definition session_flow (st : App.state) (id : string)
    (os : list ProcessingScreen.outcome) : App.state :=
  deliver
    (ProcessingScreen.calls
       (ProcessingScreen.feed (ProcessingScreen.mount id) os))
    (App.handleSessionCreated id st).

End Flow.

(** * Properties *)

(** ** Transport client *)

Section TransportErrors.
Import Js Api.

Lemma call_failure (op : operation) (res : response) :
  ok res = false →
  call op (Fulfilled res) =
    (detail ← get (json_catch res) "detail";
     throw_new_Error (or detail (VStr (synthesized op (status res))))).
Proof. intros Hok. destruct op; cbn; rewrite Hok; reflexivity. Qed.

Lemma call_success (op : operation) (res : response) :
  ok res = true → call op (Fulfilled res) = json res.
Proof. intros Hok. destruct op; cbn; rewrite Hok; reflexivity. Qed.

(** A rejected [fetch] passes through unchanged. *)
Lemma call_network_failure (op : operation) (e : exn) :
  call op (Rejected e) = Rejected e.
Proof. destruct op; reflexivity. Qed.

Lemma throw_new_Error_truthy {A} (v : value) :
  truthy v = true →
  throw_new_Error (A:=A) v =
    match to_string v with
    | Fulfilled message => Rejected (Error message)
    | Rejected e => Rejected e
    end.
Proof.
  unfold throw_new_Error, new_Error. intros Ht.
  destruct v; try done; unfold mbind, settled_bind;
    by destruct (to_string _).
Qed.

(** A truthy [detail] of any type is surfaced through [String(detail)]. *)
Lemma detail_is_coerced (op : operation) (res : response)
    (v detail : value) (message : string) :
  ok res = false → body res = Some v →
  get v "detail" = Fulfilled detail → truthy detail = true →
  to_string detail = Fulfilled message →
  call op (Fulfilled res) = Rejected (Error message).
Proof.
  intros Hok Hbody Hget Htrue Hmsg. rewrite call_failure by done.
  unfold json_catch, json. rewrite Hbody, Hget. cbn.
  unfold or. rewrite Htrue. by rewrite throw_new_Error_truthy, Hmsg.
Qed.

(** C4, as amended: on a non-success response each operation surfaces
    the backend's [detail] when the body parses to an object holding a
    non-empty string there; when the body does not parse, or parses to
    something other than [null] without a truthy [detail], the message
    is the operation's own text followed by the status in parentheses:
    "Upload failed (s)", "Failed to fetch session (s)", "Chat failed (s)".
    A body that fails to parse does not surface the parser's error. *)
Theorem transport_error_message (op : operation) (res : response) :
  ok res = false →
  (body res = None →
     call op (Fulfilled res) = Rejected (Error (synthesized op (status res))))
  ∧ (∀ fields d,
       body res = Some (VObj fields) → own fields "detail" = VStr d → d ≠ "" →
       call op (Fulfilled res) = Rejected (Error d))
  ∧ (∀ v detail,
       body res = Some v → get v "detail" = Fulfilled detail →
       truthy detail = false →
       call op (Fulfilled res) = Rejected (Error (synthesized op (status res)))).
Proof.
  intros Hok. split; [|split].
  - intros Hbody. rewrite call_failure by done.
    unfold json_catch, json. rewrite Hbody. reflexivity.
  - intros fields d Hbody Hown Hd.
    rewrite (detail_is_coerced op res (VObj fields) (VStr d) d); try done.
    + cbn. by rewrite Hown.
    + cbn. apply negb_true_iff, String.eqb_neq. exact Hd.
  - intros v detail Hbody Hget Hfalse. rewrite call_failure by done.
    unfold json_catch, json. rewrite Hbody, Hget. cbn.
    unfold or. rewrite Hfalse. reflexivity.
Qed.

Lemma transport_error_message_witness :
  uploadVideo (Fulfilled (Response 413 (Some (VObj [("detail", VStr "file too large")]))))
    = Rejected (Error "file too large")
  ∧ sendChat (Fulfilled (Response 500 None)) = Rejected (Error "Chat failed (500)").
Proof.
  split.
  - apply (proj1 (proj2 (transport_error_message CreateSession
             (Response 413 (Some (VObj [("detail", VStr "file too large")])))
             eq_refl)) [("detail", VStr "file too large")] "file too large");
      [reflexivity | reflexivity | discriminate].
  - apply (proj1 (transport_error_message SendChatMessage (Response 500 None) eq_refl)).
    reflexivity.
Defined.

(** C4, as stated, fails for [getSession]: its synthesized message is
    not of the form "<Operation> failed (<status>)". *)
Lemma getSession_message_is_not_operation_failed :
  getSession (Fulfilled (Response 404 None))
    = Rejected (Error "Failed to fetch session (404)")
  ∧ ¬ ∃ operation_name : string,
        "Failed to fetch session (404)" = operation_name +:+ " failed (404)".
Proof.
  split; [reflexivity|]. intros [name H].
  repeat (destruct name as [|? name]; cbn in H;
          [discriminate H | injection H as _ H]).
  destruct name; discriminate H.
Qed.

(** A body that parses to [null] escapes the rule: reading [detail]
    throws, and the caller sees the engine's [TypeError]. *)
Example null_body_throws_type_error :
  getSession (Fulfilled (Response 500 (Some VNull))) = Rejected TypeError.
Proof. reflexivity. Qed.

Example empty_detail_is_replaced :
  sendChat (Fulfilled (Response 502 (Some (VObj [("detail", VStr "")]))))
    = Rejected (Error "Chat failed (502)").
Proof. reflexivity. Qed.

End TransportErrors.

(** ** Lifecycle controller *)

Section Lifecycle.
Import App.

(** C6: [reset()] from any state gives the [upload] screen with session
    id, report and error cleared. *)
Theorem handleReset_clears (st : state) :
  screen (handleReset st) = upload
  ∧ sessionId (handleReset st) = None
  ∧ report (handleReset st) = None
  ∧ error (handleReset st) = "".
Proof. by destruct st. Qed.

Lemma handleReset_initial (st : state) : handleReset st = initial.
Proof. by destruct st. Qed.

(** C3, as amended: [failed(message)] moves to [upload] and stores the
    message for display; session id and report are left as they were. *)
Theorem handleError_effect (msg : string) (st : state) :
  screen (handleError msg st) = upload
  ∧ error (handleError msg st) = msg
  ∧ sessionId (handleError msg st) = sessionId st
  ∧ report (handleError msg st) = report st.
Proof. by destruct st. Qed.

(** C3, as stated, fails: after a failure in [processing] the session id
    is still the one of the failed session. *)
Lemma handleError_keeps_session_id :
  let st := handleSessionCreated "abc" initial in
  screen st = processing
  ∧ sessionId (handleError "Processing failed." st) = Some "abc"
  ∧ sessionId (handleError "Processing failed." st) ≠ None.
Proof. cbn. by repeat split. Qed.

(** The upload screen does not show the session id: what is rendered
    after a failure depends on the message alone. *)
Lemma handleError_render (msg : string) (st : state) :
  render (handleError msg st) = Some (ShowUploadForm (negb (String.eqb msg ""))).
Proof. by destruct st. Qed.

(** Every entry to [processing] sets the session id first, so the
    poller is never started with the id of an earlier session. *)
Lemma handleSessionCreated_render (id : string) (st : state) :
  render (handleSessionCreated id st) = Some (ShowProcessingScreen (Some id)).
Proof. by destruct st. Qed.

Lemma enabled_session_created st id :
  enabled st (SessionCreated id) = true → screen st = upload.
Proof.
  unfold enabled, render. destruct (screen st); try done.
  by destruct (report st).
Qed.

Lemma enabled_dismiss st : enabled st DismissError = true → screen st = upload.
Proof.
  unfold enabled, render. destruct (screen st); try done.
  by destruct (report st).
Qed.

Lemma enabled_failed st msg :
  enabled st (Failed msg) = true → screen st = processing.
Proof.
  unfold enabled, render. destruct (screen st); try done.
  by destruct (report st).
Qed.

Lemma report_invariant st :
  reachable st → (is_Some (report st) ↔ screen st = results).
Proof.
  induction 1 as [|st ev Hst IH Hen].
  - cbn. split; [intros [? ?]; done | done].
  - destruct ev as [id| |data|msg|]; cbn.
    + apply enabled_session_created in Hen.
      split; [|done]. intros Hsome. apply IH in Hsome. congruence.
    + apply enabled_dismiss in Hen.
      split; intros Hx; [apply IH in Hx|]; congruence.
    + split; eauto.
    + apply enabled_failed in Hen.
      split; [|done]. intros Hsome. apply IH in Hsome. congruence.
    + split; [intros [? ?]; done | done].
Qed.

(** C9: in every reachable state a report is stored exactly when the
    screen is [results]; [completed(report)] stores the report and
    enters [results] in one step, [reset()] clears it and leaves
    [results] in one step. *)
Theorem report_iff_results (st : state) :
  reachable st →
  (is_Some (report st) ↔ screen st = results)
  ∧ (∀ data, report (handleComplete data st) = Some data
             ∧ screen (handleComplete data st) = results)
  ∧ (report (handleReset st) = None ∧ screen (handleReset st) = upload).
Proof.
  intros Hst. split; [by apply report_invariant|]. by destruct st.
Qed.

Lemma report_iff_results_witness :
  let data := Session "abc" "completed" [] in
  let st := handle (Completed data) (handle (SessionCreated "abc") initial) in
  reachable st ∧ (is_Some (report st) ↔ screen st = results).
Proof.
  intros data st.
  assert (Hst : reachable st).
  { apply reachable_handle; [|reflexivity].
    apply reachable_handle; [|reflexivity].
    apply reachable_initial. }
  split; [exact Hst|]. exact (proj1 (report_iff_results st Hst)).
Defined.

(** In a reachable state the results screen is on display exactly when
    a report is stored, and it shows that report. *)
Lemma render_results st :
  reachable st →
  ∀ r, render st = Some (ShowResultsScreen r) ↔ report st = Some r.
Proof.
  intros Hst r. pose proof (report_invariant st Hst) as Hinv.
  unfold render. destruct (screen st) eqn:Hs, (report st) as [r'|] eqn:Hr;
    split; intros Hx; try done; try (by inversion Hx).
  - assert (is_Some (Some r')) as Hy by eauto. apply Hinv in Hy. done.
  - assert (is_Some (Some r')) as Hy by eauto. apply Hinv in Hy. done.
Qed.

(** The handlers themselves do not check the screen they are called
    from: the invariant rests on [ProcessingScreen] being the only
    caller of [onError] and on its being rendered in [processing] only. *)
Example handleError_outside_processing :
  let data := Session "abc" "completed" [] in
  let st := handleError "late" (handleComplete data (handleSessionCreated "abc" initial)) in
  screen st = upload ∧ report st = Some data.
Proof. by cbn. Qed.

(** The scenario of the specification: create, complete, and the report
    is stored as received. *)
Example scenario_completed :
  let data := Session "abc" "completed" [("analyzed_frames", Js.VNum 42)] in
  fold_left (λ st ev, handle ev st)
    [SessionCreated "abc"; Completed data] initial
  = {| screen := results; sessionId := Some "abc"; report := Some data; error := "" |}.
Proof. reflexivity. Qed.

End Lifecycle.

(** ** Session poller *)

Section Poller.
Import ProcessingScreen.

Lemma mount_polling (sid : string) : mount sid = polling sid 0.
Proof. reflexivity. Qed.

Lemma tick_polling sid n : step (polling sid n) (Tick n) = awaiting sid n.
Proof.
  unfold step, polling. cbn [timers]. rewrite lookup_singleton_eq.
  unfold poll, take_timer, issue. cbn.
  by rewrite delete_singleton_eq, insert_empty.
Qed.

Lemma answer_polling sid n (o : outcome) :
  answer (polling sid n) o =
    poll_resume (Closure 0 sid) o
      {| cancelledRef := false; effects := 1; initialDelay := Some 0;
         timers := ∅; next_timer := S n; requests := ∅;
         next_request := S n; calls := [] |}.
Proof.
  unfold answer. cbn [timers polling].
  rewrite map_to_list_singleton. cbn [head fmap option_fmap option_map fst].
  rewrite tick_polling. cbn [requests awaiting].
  rewrite map_to_list_singleton. cbn [head fmap option_fmap option_map fst].
  unfold step. cbn [requests awaiting]. rewrite lookup_singleton_eq.
  unfold take_request. cbn. by rewrite delete_singleton_eq.
Qed.

Lemma answer_in_progress sid n (o : outcome) :
  in_progress o → answer (polling sid n) o = polling sid (S n).
Proof.
  intros Ho. rewrite answer_polling.
  destruct o as [data|msg]; [|done]. cbn in Ho.
  unfold poll_resume, setTimeout, polling. cbn.
  destruct Ho as [-> | ->]; cbn; by rewrite insert_empty.
Qed.

Lemma feed_in_progress sid (os : list outcome) n :
  Forall in_progress os →
  feed (polling sid n) os = polling sid (n + length os).
Proof.
  intros Hos. revert n. induction Hos as [|o os Ho _ IH]; intros n; cbn.
  - by rewrite Nat.add_0_r.
  - rewrite answer_in_progress by done. unfold feed in IH. rewrite IH.
    f_equal. lia.
Qed.

Lemma answer_quiescent (c : component) (o : outcome) :
  quiescent c → answer c o = c.
Proof. intros [Ht _]. unfold answer. by rewrite Ht, map_to_list_empty. Qed.

Lemma feed_quiescent (c : component) (os : list outcome) :
  quiescent c → feed c os = c.
Proof.
  intros Hq. induction os as [|o os IH]; [done|].
  cbn. by rewrite answer_quiescent.
Qed.

Lemma finished_quiescent n k : quiescent (finished n k).
Proof. done. Qed.

Lemma answer_completed sid n (data : session) :
  status data = "completed" →
  answer (polling sid n) (Resolved data) = finished n (OnComplete data).
Proof.
  intros Hs. rewrite answer_polling.
  unfold poll_resume. cbn. by rewrite Hs.
Qed.

Lemma answer_failed sid n (data : session) :
  status data = "failed" →
  answer (polling sid n) (Resolved data) = finished n (OnError FAILED_MESSAGE).
Proof.
  intros Hs. rewrite answer_polling.
  unfold poll_resume. cbn. by rewrite Hs.
Qed.

Lemma answer_rejected sid n (message : string) :
  answer (polling sid n) (Rejected message) = finished n (OnError message).
Proof. by rewrite answer_polling. Qed.

Lemma feed_app (c : component) (os1 os2 : list outcome) :
  feed c (os1 ++ os2) = feed (feed c os1) os2.
Proof. apply fold_left_app. Qed.

(** Once nothing is outstanding, timers and settlements change nothing. *)
Lemma quiescent_step (c : component) (ev : event) :
  quiescent c → is_lifecycle ev = false → step c ev = c.
Proof.
  intros [Ht Hr] Hev. destruct ev as [sid| |t|r o]; try done; cbn.
  - by rewrite Ht, lookup_empty.
  - by rewrite Hr, lookup_empty.
Qed.

Lemma quiescent_exec (c : component) (evs : list event) :
  quiescent c → Forall (λ ev, is_lifecycle ev = false) evs → exec c evs = c.
Proof.
  intros Hq Hevs. induction Hevs as [|ev evs Hev _ IH]; [done|].
  cbn. by rewrite quiescent_step.
Qed.

(** However the environment orders timer and settlement events, and
    whatever identifiers it names, an undisturbed run stays on the one
    path: a timer scheduled, a poll awaited, or the run finished. *)
Lemma undisturbed_step sid (c : component) (ev : event) :
  undisturbed sid c → is_lifecycle ev = false → undisturbed sid (step c ev).
Proof.
  intros Hc Hev. destruct Hc as [n|n|n k].
  - destruct ev as [?| |t|r o]; try done.
    + destruct (decide (t = n)) as [->|Hne].
      * rewrite tick_polling. constructor.
      * cbn. rewrite lookup_singleton_ne by done. constructor.
    + cbn. rewrite lookup_empty. constructor.
  - destruct ev as [?| |t|r o]; try done.
    + cbn. rewrite lookup_empty. constructor.
    + destruct (decide (r = n)) as [->|Hne].
      * cbn. rewrite lookup_singleton_eq. unfold take_request. cbn.
        rewrite delete_singleton_eq. unfold poll_resume. cbn.
        destruct o as [data|msg]; [|apply undisturbed_finished].
        destruct (String.eqb (status data) "completed");
          [apply undisturbed_finished|].
        destruct (String.eqb (status data) "failed");
          [apply undisturbed_finished|].
        unfold setTimeout. cbn. rewrite insert_empty.
        apply (undisturbed_polling sid (S n)).
      * cbn. rewrite lookup_singleton_ne by done. constructor.
  - rewrite quiescent_step by done. constructor.
Qed.

Lemma undisturbed_exec sid (evs : list event) :
  Forall (λ ev, is_lifecycle ev = false) evs →
  undisturbed sid (exec (mount sid) evs).
Proof.
  intros Hevs. rewrite mount_polling.
  assert (Hc : undisturbed sid (polling sid 0)) by constructor.
  revert Hc. generalize (polling sid 0).
  induction Hevs as [|ev evs Hev _ IH]; intros c Hc; [done|].
  cbn. by apply IH, undisturbed_step.
Qed.

(** So no undisturbed run invokes more than one callback, and one that
    has invoked a callback has nothing left outstanding. *)
Lemma undisturbed_calls_once sid (evs : list event) :
  Forall (λ ev, is_lifecycle ev = false) evs →
  let c := exec (mount sid) evs in
  calls c = [] ∨ (∃ k, calls c = [(0, k)]) ∧ quiescent c.
Proof.
  intros Hevs. cbn zeta.
  destruct (undisturbed_exec sid evs Hevs) as [n|n|n k];
    [by left | by left | right].
  split; [by exists k | done].
Qed.

(** C2: in an undisturbed run, while every response is [pending] or
    [processing] no callback is invoked and the next poll is scheduled;
    the first [completed] response invokes [onComplete] once with the
    data received, the first [failed] response invokes [onError] once
    with the fixed message, and either ends the polling. *)
Theorem poll_until_terminal (sid : string) (os : list outcome) :
  Forall in_progress os →
  (calls (feed (mount sid) os) = [] ∧ waiting (feed (mount sid) os))
  ∧ (∀ data rest, status data = "completed" →
       let c := feed (mount sid) (os ++ Resolved data :: rest) in
       calls c = [(0, OnComplete data)] ∧ quiescent c)
  ∧ (∀ data rest, status data = "failed" →
       let c := feed (mount sid) (os ++ Resolved data :: rest) in
       calls c = [(0, OnError FAILED_MESSAGE)] ∧ quiescent c).
Proof.
  intros Hos. rewrite mount_polling. split; [|split].
  - rewrite feed_in_progress by done. split; [done|].
    split; [|done]. eexists _, _. reflexivity.
  - intros data rest Hs. cbn zeta. rewrite feed_app, feed_in_progress by done.
    cbn [feed fold_left]. rewrite answer_completed by done.
    fold (feed (finished (0 + length os) (OnComplete data)) rest).
    by rewrite feed_quiescent.
  - intros data rest Hs. cbn zeta. rewrite feed_app, feed_in_progress by done.
    cbn [feed fold_left]. rewrite answer_failed by done.
    fold (feed (finished (0 + length os) (OnError FAILED_MESSAGE)) rest).
    by rewrite feed_quiescent.
Qed.

Lemma poll_until_terminal_witness :
  let busy := Session "abc" "processing" [] in
  let done_ := Session "abc" "completed" [("analyzed_frames", Js.VNum 42)] in
  calls (feed (mount "abc") [Resolved busy; Resolved busy]) = []
  ∧ calls (feed (mount "abc")
            ([Resolved busy; Resolved busy] ++ [Resolved done_; Resolved done_]))
    = [(0, OnComplete done_)].
Proof.
  intros busy done_.
  assert (H : Forall in_progress [Resolved busy; Resolved busy]).
  { repeat constructor; right; reflexivity. }
  split.
  - exact (proj1 (proj1 (poll_until_terminal "abc" _ H))).
  - exact (proj1 (proj1 (proj2 (poll_until_terminal "abc" _ H))
                    done_ [Resolved done_] eq_refl)).
Defined.

(** C8: in an undisturbed run a poll that fails in transport invokes
    [onError] with the error's message and leaves nothing scheduled:
    later responses are never asked for, and no timer or settlement
    event changes the component again. *)
Theorem poll_transport_failure (sid : string) (os : list outcome)
    (message : string) (rest : list outcome) :
  Forall in_progress os →
  let c := feed (mount sid) (os ++ Rejected message :: rest) in
  calls c = [(0, OnError message)]
  ∧ quiescent c
  ∧ ∀ evs, Forall (λ ev, is_lifecycle ev = false) evs → exec c evs = c.
Proof.
  intros Hos. cbn zeta.
  rewrite mount_polling, feed_app, feed_in_progress by done.
  cbn [feed fold_left]. rewrite answer_rejected.
  fold (feed (finished (0 + length os) (OnError message)) rest).
  rewrite feed_quiescent by done.
  split; [done|]. split; [done|].
  intros evs Hevs. by apply quiescent_exec.
Qed.

Lemma poll_transport_failure_witness :
  let busy := Session "abc" "pending" [] in
  calls (feed (mount "abc")
           ([Resolved busy] ++ Rejected "Failed to fetch session (502)" :: [Resolved busy]))
  = [(0, OnError "Failed to fetch session (502)")].
Proof.
  intros busy.
  assert (H : Forall in_progress [Resolved busy]).
  { repeat constructor; left; reflexivity. }
  exact (proj1 (poll_transport_failure "abc" _ "Failed to fetch session (502)"
                  [Resolved busy] H)).
Defined.

(** *** Cancellation *)

Lemma cancelled_step (c : component) (ev : event) :
  cancelledRef c = true → is_effect ev = false →
  cancelledRef (step c ev) = true ∧ calls (step c ev) = calls c.
Proof.
  intros Hc Hev. destruct ev as [sid| |t|r o]; try done; cbn.
  - unfold cleanup. by destruct (initialDelay c).
  - destruct (timers c !! t); [|done]. unfold poll. cbn. by rewrite Hc.
  - destruct (requests c !! r); [|done].
    destruct o; unfold poll_resume; cbn; by rewrite Hc.
Qed.

Lemma cleanup_cancels (c : component) :
  cancelledRef (cleanup c) = true ∧ calls (cleanup c) = calls c.
Proof. unfold cleanup. by destruct (initialDelay c). Qed.

(** On teardown cancellation is final: after [Cleanup], as long as the
    effect does not run again, no poll invokes a callback, whatever
    timers fire and however the outstanding requests settle. *)
Lemma teardown_is_final (c : component) (evs : list event) :
  Forall (λ ev, is_effect ev = false) evs →
  calls (exec (step c Cleanup) evs) = calls c.
Proof.
  intros Hevs. cbn [step].
  destruct (cleanup_cancels c) as [Hc <-].
  generalize dependent (cleanup c). clear c.
  induction Hevs as [|ev evs Hev _ IH]; intros c Hc; [done|].
  cbn. destruct (cancelled_step c ev Hc Hev) as [Hc' <-]. by apply IH.
Qed.

(** The next run of the effect clears the flag the cancelled run's
    closures still read. *)
Lemma effect_resets_flag (sid : string) (c : component) :
  cancelledRef (step (step c Cleanup) (Effect sid)) = false.
Proof. reflexivity. Qed.

(** The component driven directly, as [App] never drives it: were the
    session id of a mounted screen to change while a poll is in flight,
    the poll of run 0 for session "a" would settle after run 0 was
    cleaned up and run 1 started for "b", and still invoke the
    callbacks. *)
Theorem stale_poll_after_session_change :
  let data := Session "a" "completed" [] in
  let before_change := exec rendered [Effect "a"; Tick 0] in
  let after_change := exec before_change [Cleanup; Effect "b"] in
  requests before_change !! 0 = Some (Closure 0 "a")
  ∧ calls after_change = []
  ∧ calls (step after_change (Settle 0 (Resolved data))) = [(0, OnComplete data)]
  ∧ calls (step after_change (Settle 0 (Rejected "Failed to fetch session (500)")))
    = [(0, OnError "Failed to fetch session (500)")].
Proof. cbn zeta. vm_compute. done. Qed.

(** Had the component been torn down instead, the same settlement would
    have been dropped. *)
Example stale_poll_after_unmount :
  let data := Session "a" "completed" [] in
  calls (exec rendered [Effect "a"; Tick 0; Cleanup; Settle 0 (Resolved data)]) = [].
Proof. reflexivity. Qed.

(** A stale run also keeps polling the abandoned session: its
    rescheduled timer survives the cleanup and is not stopped by the
    flag once the next run has reset it. *)
Example stale_run_keeps_polling :
  let busy := Session "a" "processing" [] in
  let c := exec rendered
    [Effect "a"; Tick 0; Settle 0 (Resolved busy); Cleanup; Effect "b"; Tick 1] in
  requests c !! 1 = Some (Closure 0 "a").
Proof. vm_compute. done. Qed.

End Poller.

(** ** Chat session *)

Section Chat.
Import ChatPanel.

#[local] Arguments Js.trim : simpl never.
#[local] Arguments ChatPanel.handleSend : simpl never.

Variable sessionId : string.

#[local] Abbreviation step := (ChatPanel.step sessionId).
#[local] Abbreviation exec := (ChatPanel.exec sessionId).
#[local] Abbreviation sent := (ChatPanel.sent sessionId).

Lemma handleSend_accepted (e : bool) (p : panel) :
  accepted p →
  handleSend e sessionId p = ((if e then [PreventDefault] else []) ++ sent p)%list.
Proof.
  intros [Htext Hload]. unfold handleSend, sent.
  apply String.eqb_neq in Htext. by rewrite Htext, Hload.
Qed.

Lemma handleSend_refused (e : bool) (p : panel) :
  Js.trim (input p) = "" ∨ loading p = true →
  handleSend e sessionId p = if e then [PreventDefault] else [].
Proof.
  intros H. unfold handleSend.
  replace (String.eqb (Js.trim (input p)) "" || loading p) with true.
  - by rewrite app_nil_r.
  - symmetry. apply orb_true_iff.
    destruct H as [H|H]; [left; by apply String.eqb_eq | by right].
Qed.

Lemma perform_prevent (p : panel) (e : bool) (acts : list action) :
  perform_all p ((if e then [PreventDefault] else []) ++ acts) = perform_all p acts.
Proof. by destruct e. Qed.

Lemma perform_sent (p : panel) :
  perform_all p (sent p) =
    {| messages := messages p ++ [Message user (Js.trim (input p))];
       input := ""; loading := true; error := "";
       outstanding := outstanding p ++ [Request sessionId (Js.trim (input p))] |}.
Proof. reflexivity. Qed.

(** Every step extends the log at its end or leaves it alone. *)
Lemma step_messages (p : panel) (ev : event) :
  messages p `prefix_of` messages (step p ev).
Proof.
  destruct ev as [v| | | |i o]; cbn.
  - by destruct (loading p).
  - unfold handleSend.
    destruct (String.eqb (Js.trim (input p)) "" || loading p); cbn;
      [done | by apply prefix_app_r].
  - unfold handleSend.
    destruct (String.eqb (Js.trim (input p)) "" || loading p); cbn;
      [done | by apply prefix_app_r].
  - done.
  - destruct (outstanding p !! i); [|done].
    destruct o; cbn; [by apply prefix_app_r | done].
Qed.

Lemma exec_messages (p : panel) (evs : list event) :
  messages p `prefix_of` messages (exec p evs).
Proof.
  revert p. induction evs as [|ev evs IH]; intros p; [done|].
  cbn. etrans; [apply step_messages | apply IH].
Qed.

Lemma in_step_step (p : panel) (ev : event) : in_step p → in_step (step p ev).
Proof.
  unfold in_step. destruct p as [ms inp ld err out]. cbn. intros Hp.
  destruct ev as [v| | | |i o]; cbn.
  - by destruct ld.
  - unfold handleSend. cbn.
    destruct (String.eqb (Js.trim inp) ""); cbn; [done|].
    destruct ld; cbn; [done|]. by apply nil_length_inv in Hp as ->.
  - unfold handleSend. cbn.
    destruct (String.eqb (Js.trim inp) ""); cbn; [done|].
    destruct ld; cbn; [done|]. by apply nil_length_inv in Hp as ->.
  - done.
  - destruct (out !! i) as [rq|] eqn:Hi; [|done].
    apply lookup_lt_Some in Hi.
    assert (length (delete i out) = 0) as Hlen.
    { rewrite length_delete by (apply lookup_lt_is_Some_2; lia).
      destruct ld; lia. }
    destruct o; cbn; exact Hlen.
Qed.

Lemma in_step_exec (p : panel) (evs : list event) :
  in_step p → in_step (exec p evs).
Proof.
  revert p. induction evs as [|ev evs IH]; intros p Hp; [done|].
  cbn. by apply IH, in_step_step.
Qed.

Lemma in_step_reachable (evs : list event) : in_step (exec initial evs).
Proof. by apply in_step_exec. Qed.

Lemma idle_nothing_outstanding (p : panel) :
  in_step p → loading p = false → outstanding p = [].
Proof.
  unfold in_step. intros Hp Hl. rewrite Hl in Hp.
  by apply nil_length_inv.
Qed.

(** While a reply is awaited, nothing but its arrival touches the log,
    the input field or the outstanding request. *)
Lemma awaiting_step (p : panel) (ev : event) :
  loading p = true → is_settle ev = false →
  messages (step p ev) = messages p ∧ input (step p ev) = input p
  ∧ loading (step p ev) = true ∧ outstanding (step p ev) = outstanding p.
Proof.
  intros Hl Hev. destruct ev as [v| | | |i o]; try done; cbn.
  - by rewrite Hl.
  - rewrite handleSend_refused by (by right). done.
  - rewrite handleSend_refused by (by right). done.
Qed.

Lemma awaiting_exec (p : panel) (evs : list event) :
  loading p = true → Forall (λ ev, is_settle ev = false) evs →
  messages (exec p evs) = messages p ∧ input (exec p evs) = input p
  ∧ loading (exec p evs) = true ∧ outstanding (exec p evs) = outstanding p.
Proof.
  intros Hl Hevs. revert p Hl.
  induction Hevs as [|ev evs Hev _ IH]; intros p Hl; [done|].
  change (exec p (ev :: evs)) with (exec (step p ev) evs).
  destruct (awaiting_step p ev Hl Hev) as (Hm & Hi & Hl' & Ho).
  destruct (IH _ Hl') as (-> & -> & -> & ->). done.
Qed.

(** The failure branch of [handleSend] never writes the input field. *)
Lemma rejected_keeps_input (p : panel) (i : nat) (message : string) :
  input (step p (Settle i (Rejected message))) = input p.
Proof. cbn. by destruct (outstanding p !! i). Qed.

(** The state a send is issued from, the events while the reply is
    awaited, and the state the reply arrives in. *)
Lemma send_then_wait (before : list event) (e : bool) (waiting : list event) :
  let p := exec initial before in
  let p1 := exec (perform_all p (handleSend e sessionId p)) waiting in
  accepted p → Forall (λ ev, is_settle ev = false) waiting →
  messages p1 = messages p ++ [Message user (Js.trim (input p))]
  ∧ input p1 = ""
  ∧ loading p1 = true
  ∧ outstanding p1 = [Request sessionId (Js.trim (input p))].
Proof.
  intros p p1 Hacc Hwait. subst p1.
  rewrite handleSend_accepted, perform_prevent, perform_sent by done.
  rewrite (idle_nothing_outstanding p) by
    (by (apply in_step_reachable || apply Hacc)).
  match goal with |- context [exec ?q waiting] =>
    destruct (awaiting_exec q waiting eq_refl Hwait) as (-> & -> & -> & ->)
  end.
  done.
Qed.

(** C5: an accepted send appends one user message; a failed reply
    surfaces the transport's message as an error that can be dismissed
    and leaves the log as it was; a successful reply appends one
    assistant message right after the user message; and no sequence of
    events changes, removes or reorders what the log already holds. *)
Theorem chat_log_append_only :
  (∀ (before : list event) (e : bool) (waiting : list event),
     let p := exec initial before in
     let p1 := exec (perform_all p (handleSend e sessionId p)) waiting in
     let mine := Message user (Js.trim (input p)) in
     accepted p → Forall (λ ev, is_settle ev = false) waiting →
     messages (perform_all p (handleSend e sessionId p)) = messages p ++ [mine]
     ∧ (∀ message,
          let p2 := step p1 (Settle 0 (Rejected message)) in
          messages p2 = messages p ++ [mine]
          ∧ error p2 = message
          ∧ error (step p2 Dismiss) = ""
          ∧ messages (step p2 Dismiss) = messages p2)
     ∧ (∀ reply,
          messages (step p1 (Settle 0 (Replied reply)))
          = messages p ++ [mine; Message assistant reply]))
  ∧ (∀ (p : panel) (evs : list event),
       messages p `prefix_of` messages (exec p evs)).
Proof.
  split; [|apply exec_messages].
  intros before e waiting p p1 mine Hacc Hwait.
  destruct (send_then_wait before e waiting Hacc Hwait) as (Hm & Hi & Hl & Ho).
  fold p in Hm, Hi, Hl, Ho. fold p1 in Hm, Hi, Hl, Ho. fold mine in Hm.
  split; [|split].
  - by rewrite handleSend_accepted, perform_prevent, perform_sent.
  - intros message. cbn. rewrite Ho. cbn. by rewrite Hm.
  - intros reply. cbn. rewrite Ho. cbn. rewrite Hm.
    by rewrite <- app_assoc.
Qed.

(** C7: [send] does nothing when the trimmed text is empty or a send is
    outstanding: no statement of it touches the state or issues a
    request; hence no run of the panel has two sends in flight. *)
Theorem send_noop_single_flight :
  (∀ (p : panel) (e : bool),
     Js.trim (input p) = "" ∨ loading p = true →
     Forall (λ a, changes_state a = false ∧ is_request a = false)
            (handleSend e sessionId p)
     ∧ step p Submit = p ∧ step p Enter = p)
  ∧ (∀ evs : list event, (length (outstanding (exec initial evs)) ≤ 1)%nat).
Proof.
  split.
  - intros p e H. split; [|split].
    + rewrite handleSend_refused by done.
      destruct e; repeat constructor.
    + cbn. by rewrite handleSend_refused.
    + cbn. by rewrite handleSend_refused.
  - intros evs. pose proof (in_step_reachable evs) as H.
    unfold in_step in H. destruct (loading _); lia.
Qed.

(** C10: an accepted send empties the input field and dismisses the
    error before the request is issued; when the reply then fails, the
    input field stays empty and the question is only in the log. *)
Theorem accepted_send_clears_input
    (before : list event) (e : bool) (waiting : list event) (message : string) :
  let p := exec initial before in
  let acts := handleSend e sessionId p in
  let text := Js.trim (input p) in
  let p1 := perform_all p acts in
  let p2 := step (exec p1 waiting) (Settle 0 (Rejected message)) in
  accepted p → Forall (λ ev, is_settle ev = false) waiting →
  ChatPanel.before (SetInput "") (SendChat sessionId text) acts
  ∧ ChatPanel.before (SetError "") (SendChat sessionId text) acts
  ∧ input p1 = "" ∧ error p1 = ""
  ∧ outstanding p1 = [Request sessionId text]
  ∧ input p2 = ""
  ∧ last (messages p2) = Some (Message user text).
Proof.
  intros p acts text p1 p2 Hacc Hwait.
  destruct (send_then_wait before e waiting Hacc Hwait) as (Hm & Hi & Hl & Ho).
  fold p in Hm, Hi, Hl, Ho. fold acts in Hm, Hi, Hl, Ho.
  fold p1 in Hm, Hi, Hl, Ho. fold text in Hm, Ho.
  assert (Hacts : acts = ((if e then [PreventDefault] else []) ++ sent p)%list)
    by (by apply handleSend_accepted).
  assert (Hp1 : p1 = perform_all p (sent p)).
  { subst p1. by rewrite Hacts, perform_prevent. }
  split; [|split; [|split; [|split; [|split; [|split]]]]].
  - rewrite Hacts.
    exists (if e then [PreventDefault] else []),
      [SetError ""; AppendMessage (Message user text); SetLoading true], [].
    reflexivity.
  - rewrite Hacts.
    exists ((if e then [PreventDefault] else []) ++ [SetInput ""])%list,
      [AppendMessage (Message user text); SetLoading true], [].
    by rewrite <- app_assoc.
  - by rewrite Hp1.
  - by rewrite Hp1.
  - rewrite Hp1, perform_sent. cbn.
    rewrite (idle_nothing_outstanding p) by
      (by (apply in_step_reachable || apply Hacc)).
    done.
  - subst p2. cbn. rewrite Ho. cbn. exact Hi.
  - subst p2. cbn. rewrite Ho. cbn. rewrite Hm. apply last_snoc.
Qed.

End Chat.

Section ChatScenarios.
Import ChatPanel.

Lemma chat_log_append_only_witness :
  let p := exec "abc" initial [Change " How is my stance? "] in
  let p1 := exec "abc" (perform_all p (handleSend true "abc" p)) [Dismiss; Enter] in
  accepted p
  ∧ messages (step "abc" p1 (Settle 0 (Replied "Bend your knees.")))
    = [Message user "How is my stance?"; Message assistant "Bend your knees."]
  ∧ messages (step "abc" p1 (Settle 0 (Rejected "Chat failed (500)")))
    = [Message user "How is my stance?"].
Proof.
  intros p p1.
  assert (Hacc : accepted p).
  { split; [intros H; vm_compute in H; discriminate H | reflexivity]. }
  assert (Hwait : Forall (λ ev, is_settle ev = false) [Dismiss; Enter]).
  { repeat constructor. }
  pose proof (proj1 (chat_log_append_only "abc")
                [Change " How is my stance? "] true [Dismiss; Enter] Hacc Hwait)
    as (_ & Hfail & Hok).
  split; [exact Hacc|]. split.
  - exact (Hok "Bend your knees.").
  - exact (proj1 (Hfail "Chat failed (500)")).
Defined.

Lemma send_noop_single_flight_witness :
  let blank := exec "abc" initial [Change "   "] in
  let busy := exec "abc" initial [Change "first"; Submit; Change "second"] in
  step "abc" blank Submit = blank
  ∧ loading busy = true ∧ step "abc" busy Enter = busy.
Proof.
  intros blank busy.
  split; [|split].
  - apply (proj1 (send_noop_single_flight "abc") blank true). left. reflexivity.
  - reflexivity.
  - apply (proj1 (send_noop_single_flight "abc") busy false). right. reflexivity.
Defined.

Lemma accepted_send_clears_input_witness :
  let p := exec "abc" initial
             [Change "x"; Submit; Settle 0 (Rejected "Chat failed (503)");
              Change "Why do I fall?"] in
  let p1 := perform_all p (handleSend false "abc" p) in
  let p2 := step "abc" (exec "abc" p1 [Enter]) (Settle 0 (Rejected "Chat failed (500)")) in
  error p = "Chat failed (503)"
  ∧ input p1 = "" ∧ error p1 = ""
  ∧ input p2 = "" ∧ error p2 = "Chat failed (500)"
  ∧ last (messages p2) = Some (Message user "Why do I fall?").
Proof.
  intros p p1 p2.
  assert (Hacc : accepted p).
  { split; [intros H; vm_compute in H; discriminate H | reflexivity]. }
  assert (Hwait : Forall (λ ev, is_settle ev = false) [Enter]).
  { repeat constructor. }
  pose proof (accepted_send_clears_input "abc"
                [Change "x"; Submit; Settle 0 (Rejected "Chat failed (503)");
                 Change "Why do I fall?"]
                false [Enter] "Chat failed (500)" Hacc Hwait)
    as (_ & _ & Hin & Herr & _ & Hin2 & Hlast).
  split; [reflexivity|].
  split; [exact Hin|]. split; [exact Herr|]. split; [exact Hin2|].
  split; [reflexivity | exact Hlast].
Defined.

End ChatScenarios.

(** ** Strings: what [trim] leaves *)

Section Trimming.
Import Js.

Lemma append_cons (x : ascii) (a b : string) :
  String x a +:+ b = String x (a +:+ b).
Proof. reflexivity. Qed.

Lemma append_assoc (a b c : string) : (a +:+ b) +:+ c = a +:+ (b +:+ c).
Proof. induction a as [|x a IH]; [done|]. rewrite !append_cons. by rewrite IH. Qed.

Lemma append_nil_r (a : string) : a +:+ "" = a.
Proof. induction a as [|x a IH]; [done|]. rewrite append_cons. by rewrite IH. Qed.

Lemma rev_app_append (a b : string) : String.rev_app a b = String.rev a +:+ b.
Proof.
  revert b. induction a as [|x a IH]; intros b; [done|].
  unfold String.rev. cbn [String.rev_app].
  rewrite (IH (String x "")), IH. by rewrite append_assoc.
Qed.

Lemma rev_cons (x : ascii) (a : string) :
  String.rev (String x a) = String.rev a +:+ String x "".
Proof. unfold String.rev. cbn [String.rev_app]. by rewrite rev_app_append. Qed.

Lemma rev_append (a b : string) :
  String.rev (a +:+ b) = String.rev b +:+ String.rev a.
Proof.
  induction a as [|x a IH].
  - by rewrite append_nil_r.
  - rewrite append_cons, !rev_cons, IH. by rewrite append_assoc.
Qed.

Lemma rev_involutive (a : string) : String.rev (String.rev a) = a.
Proof.
  induction a as [|x a IH]; [done|].
  rewrite rev_cons, rev_append, IH. done.
Qed.

Lemma all_white_append (a b : string) :
  all_white (a +:+ b) = all_white a && all_white b.
Proof.
  induction a as [|x a IH]; [done|].
  rewrite append_cons. cbn. rewrite IH. by rewrite andb_assoc.
Qed.

Lemma all_white_rev (a : string) : all_white (String.rev a) = all_white a.
Proof.
  induction a as [|x a IH]; [done|].
  rewrite rev_cons, all_white_append, IH. cbn.
  rewrite andb_true_r. apply andb_comm.
Qed.

Lemma trimStart_split (s : string) :
  ∃ w, s = w +:+ trimStart s ∧ all_white w = true.
Proof.
  induction s as [|x s (w & Hs & Hw)]; [by exists ""|].
  cbn. destruct (is_white x) eqn:Hx.
  - exists (String x w). rewrite append_cons. cbn. rewrite Hx, Hw.
    by rewrite <- Hs.
  - by exists "".
Qed.

Lemma trimStart_clean (s : string) : starts_clean (trimStart s).
Proof.
  induction s as [|x s IH]; [done|].
  cbn. by destruct (is_white x) eqn:Hx.
Qed.

Lemma trimStart_id (s : string) : starts_clean s → trimStart s = s.
Proof. destruct s as [|x s]; [done|]. cbn. by intros ->. Qed.

Lemma trimStart_empty (s : string) : trimStart s = "" ↔ all_white s = true.
Proof.
  induction s as [|x s IH]; [done|].
  cbn. destruct (is_white x); [exact IH | done].
Qed.

Lemma rev_empty (s : string) : String.rev s = "" ↔ s = "".
Proof.
  split; [|by intros ->].
  intros H. rewrite <- (rev_involutive s). by rewrite H.
Qed.

Lemma starts_clean_append (a b : string) :
  a ≠ "" → starts_clean (a +:+ b) → starts_clean a.
Proof. by destruct a. Qed.

(** [trim s] is [s] without a run of white space at each end, and has
    white space at neither end. *)
Lemma trim_spec (s : string) :
  ∃ w1 w2,
    s = w1 +:+ trim s +:+ w2
    ∧ all_white w1 = true ∧ all_white w2 = true
    ∧ starts_clean (trim s) ∧ starts_clean (String.rev (trim s)).
Proof.
  destruct (trimStart_split s) as (w1 & Hs & Hw1).
  destruct (trimStart_split (String.rev (trimStart s))) as (w & Hr & Hw).
  unfold trim, trimEnd.
  set (t := trimStart s) in *. set (u := trimStart (String.rev t)) in *.
  assert (Ht : t = String.rev u +:+ String.rev w).
  { rewrite <- (rev_involutive t), Hr. apply rev_append. }
  exists w1, (String.rev w). repeat split.
  - by rewrite <- Ht.
  - done.
  - by rewrite all_white_rev.
  - destruct (decide (String.rev u = "")) as [->|Hne]; [done|].
    apply (starts_clean_append _ (String.rev w)); [done|].
    rewrite <- Ht. apply trimStart_clean.
  - rewrite rev_involutive. apply trimStart_clean.
Qed.

Lemma trim_idempotent (s : string) : trim (trim s) = trim s.
Proof.
  destruct (trim_spec s) as (_ & _ & _ & _ & _ & H1 & H2).
  unfold trim at 1. unfold trimEnd.
  rewrite (trimStart_id (trim s)) by done.
  rewrite (trimStart_id (String.rev (trim s))) by done.
  apply rev_involutive.
Qed.

Lemma trim_empty (s : string) : trim s = "" ↔ all_white s = true.
Proof.
  unfold trim, trimEnd. rewrite rev_empty, trimStart_empty, all_white_rev.
  destruct (trimStart_split s) as (w & Hs & Hw).
  rewrite Hs at 2. rewrite all_white_append, Hw. cbn.
  split.
  - done.
  - done.
Qed.

End Trimming.

(** ** Chat session: what the log holds *)

Section ChatLog.
Import ChatPanel.

#[local] Arguments Js.trim : simpl never.
#[local] Arguments ChatPanel.handleSend : simpl never.

Variable sessionId : string.

#[local] Abbreviation step := (ChatPanel.step sessionId).
#[local] Abbreviation exec := (ChatPanel.exec sessionId).

Lemma trim_tidy (text : string) :
  Js.trim text ≠ "" → tidy (Message user (Js.trim text)).
Proof.
  intros Hne _. destruct (trim_spec text) as (_ & _ & _ & _ & _ & H1 & H2).
  done.
Qed.

Lemma handleSend_cases (e : bool) (p : panel) :
  (accepted p ∧
   handleSend e sessionId p = (if e then [PreventDefault] else []) ++ sent sessionId p)
  ∨ ((Js.trim (input p) = "" ∨ loading p = true) ∧
     handleSend e sessionId p = if e then [PreventDefault] else []).
Proof.
  destruct (decide (Js.trim (input p) = "")) as [Ht|Ht].
  { right. split; [by left|]. rewrite handleSend_refused; [done | by left]. }
  destruct (loading p) eqn:Hl.
  { right. split; [by right|]. rewrite handleSend_refused; [done | by right]. }
  left. split; [done|]. by apply handleSend_accepted.
Qed.

Lemma perform_handleSend (e : bool) (p : panel) :
  (accepted p ∧
   perform_all p (handleSend e sessionId p) = perform_all p (sent sessionId p))
  ∨ ((Js.trim (input p) = "" ∨ loading p = true) ∧
     perform_all p (handleSend e sessionId p) = p).
Proof.
  destruct (handleSend_cases e p) as [[Hacc ->]|[Href ->]].
  - left. split; [done|]. apply perform_prevent.
  - right. split; [done|]. by destruct e.
Qed.

Lemma step_submit (p : panel) :
  step p Submit = perform_all p (handleSend true sessionId p).
Proof. reflexivity. Qed.

Lemma step_enter (p : panel) :
  step p Enter = perform_all p (handleSend false sessionId p).
Proof. reflexivity. Qed.

Lemma tidy_step (p : panel) (ev : event) :
  Forall tidy (messages p) → Forall tidy (messages (step p ev)).
Proof.
  intros Hp. destruct ev as [v| | | |i o];
    rewrite ?step_submit, ?step_enter; cbn.
  - by destruct (loading p).
  - destruct (perform_handleSend true p) as [[Hacc ->]|[_ ->]]; [|done].
    rewrite perform_sent. cbn. apply Forall_app. split; [done|].
    constructor; [|done]. apply trim_tidy, Hacc.
  - destruct (perform_handleSend false p) as [[Hacc ->]|[_ ->]]; [|done].
    rewrite perform_sent. cbn. apply Forall_app. split; [done|].
    constructor; [|done]. apply trim_tidy, Hacc.
  - done.
  - destruct (outstanding p !! i); [|done].
    destruct o; cbn; [|done].
    apply Forall_app. split; [done|]. constructor; [|done]. by intros ?.
Qed.

(** Every user message in the log is the trimmed text of an accepted
    send: never empty, and without white space at either end. *)
Theorem chat_user_messages_tidy (evs : list event) (m : message) :
  m ∈ messages (exec initial evs) → msg_role m = user →
  content m ≠ ""
  ∧ Js.starts_clean (content m)
  ∧ Js.starts_clean (String.rev (content m)).
Proof.
  assert (H : Forall tidy (messages (exec initial evs))).
  { assert (H0 : Forall tidy (messages initial)) by constructor.
    revert H0. generalize initial.
    induction evs as [|ev evs IH]; intros p Hp; [done|].
    cbn. by apply IH, tidy_step. }
  intros Hm. rewrite Forall_forall in H. by apply H.
Qed.

Lemma paired_snoc (b : bool) (l : list message) (m : message) :
  paired b (l ++ [m]) = paired b l && (is_user m || ends_with_user b l).
Proof.
  revert b. induction l as [|x l IH]; intros b; cbn.
  - destruct (is_user m); cbn; [done | by rewrite andb_true_r].
  - destruct (is_user x); rewrite IH; [done|]. by rewrite andb_assoc.
Qed.

Lemma ends_with_user_snoc (b : bool) (l : list message) (m : message) :
  ends_with_user b (l ++ [m]) = is_user m.
Proof. revert b. induction l as [|x l IH]; intros b; cbn; [done | apply IH]. Qed.

Lemma well_paired_step (p : panel) (ev : event) :
  well_paired p → well_paired (step p ev).
Proof.
  intros (Hin & Hp & Hl).
  split; [by apply in_step_step|].
  destruct ev as [v| | | |i o]; rewrite ?step_submit, ?step_enter; cbn.
  - destruct (loading p) eqn:E; cbn; rewrite ?E; by split.
  - destruct (perform_handleSend true p) as [[Hacc ->]|[_ ->]]; [|done].
    rewrite perform_sent. cbn. rewrite paired_snoc, ends_with_user_snoc, Hp.
    done.
  - destruct (perform_handleSend false p) as [[Hacc ->]|[_ ->]]; [|done].
    rewrite perform_sent. cbn. rewrite paired_snoc, ends_with_user_snoc, Hp.
    done.
  - done.
  - destruct (outstanding p !! i) as [rq|] eqn:Hi; [|done].
    assert (loading p = true) as Hload.
    { apply lookup_lt_Some in Hi. unfold in_step in Hin.
      destruct (loading p); [done | lia]. }
    destruct o; cbn.
    + rewrite paired_snoc, Hp, (Hl Hload). done.
    + done.
Qed.

(** In every log an assistant message comes right after a user message:
    the log never begins with a reply and never holds two replies in a
    row. *)
Theorem chat_replies_follow_questions (evs : list event) :
  paired false (messages (exec initial evs)) = true.
Proof.
  assert (H : well_paired (exec initial evs)).
  { assert (H0 : well_paired initial) by done.
    revert H0. generalize initial.
    induction evs as [|ev evs IH]; intros p Hp; [done|].
    cbn. by apply IH, well_paired_step. }
  apply H.
Qed.

(** A send goes through exactly when no send is outstanding and the
    input holds a character that is not white space; otherwise
    [handleSend] performs nothing but [preventDefault]. *)
Theorem send_accepted_iff (e : bool) (p : panel) :
  (Exists (λ a, changes_state a = true) (handleSend e sessionId p)
   ↔ Js.all_white (input p) = false ∧ loading p = false)
  ∧ (In (SendChat sessionId (Js.trim (input p))) (handleSend e sessionId p)
     ↔ Js.all_white (input p) = false ∧ loading p = false).
Proof.
  assert (Hacc : accepted p ↔ Js.all_white (input p) = false ∧ loading p = false).
  { unfold accepted. rewrite trim_empty. by rewrite not_true_iff_false. }
  rewrite <- Hacc.
  destruct (handleSend_cases e p) as [[Ha ->]|[Href ->]].
  - split; (split; [done|intros _]).
    + apply Exists_app. right. by constructor.
    + apply in_app_iff. right. cbn. tauto.
  - assert (¬ accepted p) as Hn.
    { intros [H1 H2]. destruct Href; congruence. }
    split; (split; [|done]); intros H; exfalso.
    + destruct e; [|by inversion H].
      inversion H as [? ? Hx|? ? Hx]; [done | by inversion Hx].
    + destruct e; [|done]. by destruct H.
Qed.

End ChatLog.

Section ChatLogScenarios.
Import ChatPanel.

Lemma chat_user_messages_tidy_witness :
  let m := Message user "hi" in
  m ∈ messages (exec "abc" initial [Change "  hi "; Submit])
  ∧ content m ≠ "" ∧ Js.starts_clean (content m).
Proof.
  intros m.
  assert (Hm : m ∈ messages (exec "abc" initial [Change "  hi "; Submit])).
  { change (m ∈ [m]). constructor. }
  split; [exact Hm|].
  pose proof (chat_user_messages_tidy "abc" [Change "  hi "; Submit] m Hm eq_refl)
    as (H1 & H2 & _).
  by split.
Defined.

End ChatLogScenarios.

(** ** Transport client: when a call succeeds, and how it fails *)

Section TransportOutcomes.
Import Js Api.

(** Each of the three operations fulfils exactly when the response is a
    success whose body parses, and then with the parsed body; nothing
    is fulfilled from a failed [fetch] or a non-success status. *)
Theorem call_fulfilled_iff (op : operation) (fetched : settled response) (v : value) :
  call op fetched = Fulfilled v
  ↔ ∃ res, fetched = Fulfilled res ∧ ok res = true ∧ body res = Some v.
Proof.
  destruct fetched as [res|e].
  - destruct (ok res) eqn:Hok.
    + rewrite call_success by done. unfold json.
      split.
      * destruct (body res) as [b|] eqn:Hb; [|done].
        intros [= ->]. by exists res.
      * intros (res' & [= <-] & _ & ->). done.
    + rewrite call_failure by done. split.
      * destruct (get (json_catch res) "detail") as [d|]; [|done]. cbn.
        unfold throw_new_Error. by destruct (new_Error _).
      * intros (res' & [= <-] & Hok' & _). congruence.
  - rewrite call_network_failure. split; [done|]. by intros (? & ? & _).
Qed.

(** Induction on values that reaches the elements of an array. *)
Lemma value_elements_ind (P : value → Prop) :
  P VUndefined → P VNull → (∀ b, P (VBool b)) → (∀ n, P (VNum n)) →
  (∀ s, P (VStr s)) → (∀ xs, Forall P xs → P (VArr xs)) →
  (∀ fields, P (VObj fields)) → ∀ v, P v.
Proof.
  intros Hu Hn Hb Hnum Hs Harr Hobj.
  fix IH 1. intros [| |b|n|s|xs|fields].
  - exact Hu.
  - exact Hn.
  - apply Hb.
  - apply Hnum.
  - apply Hs.
  - apply Harr.
    induction xs as [|x xs IHxs]; constructor; [apply IH | exact IHxs].
  - apply Hobj.
Qed.

(** [String(v)] throws exactly for an object with an own [toString],
    alone or somewhere among the elements of an array. *)
Lemma to_string_outcome (v : value) :
  if unprintable v then to_string v = Rejected TypeError
  else ∃ s, to_string v = Fulfilled s.
Proof.
  induction v as [| |b|n|s|xs IH|fields] using value_elements_ind;
    cbn [unprintable]; try (by eexists).
  - destruct b; by eexists.
  - cbn [to_string].
    induction IH as [|x xs Hx _ IHxs]; [by eexists|].
    cbn [existsb].
    destruct (unprintable x) eqn:Ex; cbn [orb].
    + destruct x; try done; by rewrite Hx.
    + destruct Hx as [p Hp].
      assert (Hx' : ∃ p', match x with
                          | VUndefined | VNull => Fulfilled ""
                          | _ => to_string x
                          end = Fulfilled p').
      { destruct x; by eexists. }
      destruct Hx' as [p' ->].
      destruct (existsb unprintable xs).
      * destruct (_ xs) as [ps|e]; [done|]. by injection IHxs as ->.
      * destruct IHxs as [s Hs].
        destruct (_ xs) as [ps|e]; [by eexists | done].
  - cbn [to_string]. destruct (has_own fields "toString"); [done | by eexists].
Qed.

Lemma throw_new_Error_outcome {A} (d : value) (fallback : string) :
  if truthy d && unprintable d
  then throw_new_Error (A:=A) (or d (VStr fallback)) = Rejected TypeError
  else ∃ message,
         throw_new_Error (A:=A) (or d (VStr fallback)) = Rejected (Error message).
Proof.
  unfold or. destruct (truthy d) eqn:Ht; cbn [andb]; [|by eexists].
  rewrite throw_new_Error_truthy by done.
  pose proof (to_string_outcome d) as Hd.
  destruct (unprintable d); [by rewrite Hd|].
  destruct Hd as [s ->]. by eexists.
Qed.

Lemma get_rejected (v : value) (k : string) :
  (get v k = Rejected TypeError ↔ nullish v = true)
  ∧ (nullish v = false → ∃ d, get v k = Fulfilled d).
Proof. destruct v; cbn; split; try done; eauto. Qed.

(** On a non-success response an operation never surfaces the parser's
    error.  It surfaces the engine's [TypeError] exactly when the body
    parses to [null] (a JSON text cannot give [undefined]), or when the
    [detail] is truthy and cannot be converted to a string: an object
    with an own [toString], alone or among the elements of an array.
    In every other case the rejection is an [Error] carrying a message. *)
Theorem call_rejection_kind (op : operation) (res : response) :
  ok res = false →
  call op (Fulfilled res) ≠ Rejected SyntaxError
  ∧ (call op (Fulfilled res) = Rejected TypeError
     ↔ (∃ v, body res = Some v ∧ nullish v = true)
       ∨ (∃ v d, body res = Some v ∧ get v "detail" = Fulfilled d
                 ∧ truthy d = true ∧ unprintable d = true))
  ∧ ((∀ v, body res = Some v →
        nullish v = false
        ∧ ∀ d, get v "detail" = Fulfilled d → truthy d && unprintable d = false) →
     ∃ message, call op (Fulfilled res) = Rejected (Error message)).
Proof.
  intros Hok. rewrite call_failure by done.
  assert (Hdata : body res = None ∧ json_catch res = VObj []
                  ∨ ∃ v, body res = Some v ∧ json_catch res = v).
  { unfold json_catch, json. destruct (body res); eauto. }
  destruct (nullish (json_catch res)) eqn:Hn.
  - apply (get_rejected _ "detail") in Hn as Hget. rewrite Hget. cbn.
    destruct Hdata as [[_ Hd]|(v & Hb & Hd)]; [by rewrite Hd in Hn|].
    rewrite Hd in Hn.
    split; [done|]. split.
    + split; [intros _|done]. left. by exists v.
    + intros Hall. apply Hall in Hb as [Hb _]. congruence.
  - destruct (proj2 (get_rejected (json_catch res) "detail") Hn) as [d Hget].
    rewrite Hget. cbn.
    pose proof (throw_new_Error_outcome (A:=value) d
                  (synthesized op (status res))) as Hthrow.
    destruct (truthy d && unprintable d) eqn:Hbad.
    + rewrite Hthrow. apply andb_true_iff in Hbad as [Ht Hu].
      split; [done|]. split.
      * split; [intros _|done].
        destruct Hdata as [[_ Hd]|(v & Hb & Hd)].
        -- rewrite Hd in Hget. cbn in Hget. injection Hget as <-. done.
        -- right. exists v, d. rewrite Hd in Hget. done.
      * intros Hall. destruct Hdata as [[_ Hd]|(v & Hb & Hd)].
        -- rewrite Hd in Hget. cbn in Hget. injection Hget as <-. done.
        -- apply Hall in Hb as [_ Hb]. rewrite Hd in Hget.
           apply Hb in Hget. rewrite Ht, Hu in Hget. done.
    + destruct Hthrow as [m ->].
      split; [done|]. split; [|by eauto].
      split; [done|].
      intros [(v & Hb & Hv)|(v & d' & Hb & Hg & Ht & Hu)].
      * destruct Hdata as [[Hb' _]|(v' & Hb' & Hd)]; congruence.
      * destruct Hdata as [[Hb' _]|(v' & Hb' & Hd)]; [congruence|].
        assert (v' = v) as -> by congruence. rewrite Hd in Hget.
        assert (d' = d) as -> by congruence.
        rewrite Ht, Hu in Hbad. done.
Qed.

Lemma call_rejection_kind_witness :
  getSession (Fulfilled (Response 503 None)) ≠ Rejected SyntaxError
  ∧ sendChat (Fulfilled (Response 500 (Some VNull))) = Rejected TypeError
  ∧ uploadVideo (Fulfilled (Response 400 (Some (VObj
      [("detail", VObj [("toString", VNum 1)])]))))
    = Rejected TypeError.
Proof.
  split; [|split].
  - exact (proj1 (call_rejection_kind GetSession (Response 503 None) eq_refl)).
  - apply (proj1 (proj2 (call_rejection_kind SendChatMessage
                           (Response 500 (Some VNull)) eq_refl))).
    left. by exists VNull.
  - apply (proj1 (proj2 (call_rejection_kind CreateSession
             (Response 400 (Some (VObj [("detail", VObj [("toString", VNum 1)])])))
             eq_refl))).
    right. by exists (VObj [("detail", VObj [("toString", VNum 1)])]),
                     (VObj [("toString", VNum 1)]).
Defined.

(** The health check fulfils under the same condition as the other
    operations, but on a non-success response its message is fixed: it
    reads neither the status nor the body, so no body makes it throw. *)
Theorem checkHealth_outcome (res : response) :
  (∀ v, checkHealth (Fulfilled res) = Fulfilled v
        ↔ ok res = true ∧ body res = Some v)
  ∧ (ok res = false →
     checkHealth (Fulfilled res) = Rejected (Error "API is not available")).
Proof.
  unfold checkHealth. cbn. destruct (ok res); cbn; unfold json.
  - split; [|done]. intros v. destruct (body res); split; try done.
    + by intros [= ->].
    + by intros [_ [= ->]].
    + by intros [_ ?].
  - split; [|done]. intros v. split; [done | by intros [? _]].
Qed.

End TransportOutcomes.

(** ** The Konami code listener *)

Section KonamiCode.
Import Konami.

Lemma konami_step_bounded (st : state) (ev : event) :
  konamiIndex st < 10 → konamiIndex (step st ev) < 10.
Proof.
  intros Hi. destruct ev as [code|]; cbn.
  - unfold handleKeyDown. destruct (matches code (konamiIndex st)); cbn; [|lia].
    destruct (konamiIndex st =? 9)%nat eqn:E; cbn; [lia|].
    apply Nat.eqb_neq in E. lia.
  - destruct (hide_timers st); cbn; lia.
Qed.

Lemma konami_step_hides (st : state) (ev : event) :
  (showEasterEgg st = true → 0 < hide_timers st) →
  showEasterEgg (step st ev) = true → 0 < hide_timers (step st ev).
Proof.
  intros Hst. destruct ev as [code|]; cbn.
  - unfold handleKeyDown. destruct (matches code (konamiIndex st)); cbn; [|done].
    destruct (konamiIndex st =? 9)%nat; cbn; [lia | done].
  - destruct (hide_timers st) eqn:E; cbn; [|done].
    intros H. apply Hst in H. lia.
Qed.

(** The listener's index always points into the code, so the key is
    always compared with a key of the code; and whenever the overlay is
    shown, a timer that hides it is pending. *)
Theorem konami_invariants (evs : list event) :
  konamiIndex (exec initial evs) < length KONAMI_CODE
  ∧ (showEasterEgg (exec initial evs) = true → 0 < hide_timers (exec initial evs)).
Proof.
  assert (H0 : konamiIndex initial < 10
               ∧ (showEasterEgg initial = true → 0 < hide_timers initial))
    by (cbn; split; [lia | done]).
  revert H0. generalize initial.
  induction evs as [|ev evs IH]; intros st [H1 H2]; [done|].
  cbn. apply IH. split; [by apply konami_step_bounded | by apply konami_step_hides].
Qed.

(** Typing the code shows the overlay exactly when the listener had no
    progress before: after any other progress the first keys of the
    code are taken as a wrong continuation, and the code is lost. *)
Theorem konami_trigger (st : state) :
  konamiIndex st < length KONAMI_CODE → showEasterEgg st = false →
  (showEasterEgg (type st KONAMI_CODE) = true ↔ konamiIndex st = 0).
Proof.
  destruct st as [i sh t]. cbn. intros Hi ->.
  do 10 (destruct i as [|i]; [vm_compute; split; (done || lia || congruence)|]).
  lia.
Qed.

Lemma konami_trigger_witness :
  showEasterEgg (type initial KONAMI_CODE) = true
  ∧ showEasterEgg (type (type initial ["ArrowUp"]) KONAMI_CODE) = false.
Proof.
  split.
  - apply (proj2 (konami_trigger initial ltac:(cbn; lia) eq_refl)). reflexivity.
  - apply not_true_is_false. intros H.
    apply (konami_trigger (type initial ["ArrowUp"]) ltac:(cbn; lia) eq_refl) in H.
    discriminate H.
Defined.

End KonamiCode.

(** ** Upload form *)

Section Upload.
Import Js UploadForm.

Lemma split_nonempty (sep : ascii) (s : string) : split sep s ≠ [].
Proof.
  induction s as [|c s IH]; [done|]. cbn.
  destruct (Ascii.eqb c sep); [done|]. by destruct (split sep s).
Qed.

Lemma split_append (sep : ascii) (a b : string) :
  split sep (a +:+ String sep b) = split sep a ++ split sep b.
Proof.
  induction a as [|c a IH].
  - change ("" +:+ String sep b) with (String sep b).
    cbn. by rewrite Ascii.eqb_refl.
  - rewrite append_cons. cbn. rewrite IH.
    destruct (Ascii.eqb c sep); [done|].
    pose proof (split_nonempty sep a). by destruct (split sep a).
Qed.

Lemma split_whole (sep : ascii) (s : string) :
  occurs sep s = false → split sep s = [s].
Proof.
  induction s as [|c s IH]; [done|]. cbn.
  intros [Hc Hs]%orb_false_iff. rewrite Hc, IH by done. done.
Qed.

Lemma pop_app (l1 l2 : list string) : l2 ≠ [] → pop (l1 ++ l2) = pop l2.
Proof.
  intros Hl2. unfold pop. induction l1 as [|x l1 IH]; [done|].
  cbn. destruct (l1 ++ l2) eqn:E; [|done].
  by apply app_eq_nil in E as [_ ?].
Qed.

(** The extension is what follows the last dot, in lower case; a name
    without a dot is its own extension. *)
Lemma extension_spec (stem ext : string) (sz : N) :
  occurs "." ext = false →
  extension (File (stem +:+ "." +:+ ext) sz) = "." +:+ toLowerCase ext
  ∧ extension (File ext sz) = "." +:+ toLowerCase ext.
Proof.
  intros Hext. unfold extension. cbn [name].
  change ("." +:+ ext) with (String "." ext).
  rewrite split_append, pop_app by apply split_nonempty.
  by rewrite split_whole.
Qed.

Lemma includes_allowed (x : string) :
  includes ALLOWED_EXTENSIONS ("." +:+ x) = true
  ↔ x ∈ ["mp4"; "mov"; "avi"; "mkv"; "webm"].
Proof.
  unfold includes, ALLOWED_EXTENSIONS. cbn.
  rewrite !orb_true_iff, !String.eqb_eq, !elem_of_cons, elem_of_nil.
  change ("." +:+ x) with (String "." x).
  split; intros H.
  - repeat (destruct H as [H|H]; [injection H as ->; auto 10|]). done.
  - repeat (destruct H as [->|H]; [auto 10|]). done.
Qed.

Lemma validateFile_None (f : file) :
  validateFile f = None
  ↔ includes ALLOWED_EXTENSIONS (extension f) = true ∧ (size f ≤ 104857600)%N.
Proof.
  unfold validateFile.
  destruct (includes ALLOWED_EXTENSIONS (extension f)); cbn [negb].
  - change (MAX_SIZE_MB * 1024 * 1024)%N with 104857600%N.
    destruct (104857600 <? size f)%N eqn:E.
    + apply N.ltb_lt in E. split; [done|]. intros [_ ?]. lia.
    + apply N.ltb_ge in E. split; [|done]. intros _. by split.
  - split; [done | by intros [? _]].
Qed.

(** A file is accepted exactly when what follows the last dot of its
    name is, in any letter case, one of mp4, mov, avi, mkv, webm, and
    its size is at most 100 MiB; a name without a dot counts as its own
    extension. *)
Theorem validateFile_accepts (stem ext : string) (sz : N) :
  occurs "." ext = false →
  (validateFile (File (stem +:+ "." +:+ ext) sz) = None
   ↔ toLowerCase ext ∈ ["mp4"; "mov"; "avi"; "mkv"; "webm"] ∧ (sz ≤ 104857600)%N)
  ∧ (validateFile (File ext sz) = None
     ↔ toLowerCase ext ∈ ["mp4"; "mov"; "avi"; "mkv"; "webm"] ∧ (sz ≤ 104857600)%N).
Proof.
  intros Hext. destruct (extension_spec stem ext sz Hext) as [H1 H2].
  rewrite !validateFile_None, H1, H2, includes_allowed. done.
Qed.

Lemma validateFile_accepts_witness :
  validateFile (File "barrel.day2.MoV" 104857600) = None
  ∧ validateFile (File "webm" 0) = None.
Proof.
  pose proof (validateFile_accepts "barrel.day2" "MoV" 104857600 eq_refl) as [H1 _].
  pose proof (validateFile_accepts "" "webm" 0 eq_refl) as [_ H2].
  split.
  - apply H1. split; [|lia]. change ("mov" ∈ ["mp4"; "mov"; "avi"; "mkv"; "webm"]).
    repeat constructor.
  - apply H2. split; [|lia]. change ("webm" ∈ ["mp4"; "mov"; "avi"; "mkv"; "webm"]).
    repeat constructor.
Defined.

Lemma handleFile_valid (f : file) (st : form) :
  (∀ g, file_ st = Some g → validateFile g = None) →
  ∀ g, file_ (handleFile f st) = Some g → validateFile g = None.
Proof.
  intros Hst g. unfold handleFile.
  destruct (validateFile f) eqn:Hf; cbn; [done|]. by intros [= <-].
Qed.

Lemma step_valid (st : form) (ev : event) :
  (∀ g, file_ st = Some g → validateFile g = None) →
  ∀ g, file_ (step st ev) = Some g → validateFile g = None.
Proof.
  intros Hst. destruct ev as [f|f| | |v|v| |i o]; cbn.
  - destruct f as [f|]; [|done]. by apply handleFile_valid.
  - destruct f as [f|]; [|done]. by apply handleFile_valid.
  - done.
  - done.
  - by destruct (uploading st).
  - by destruct (uploading st).
  - destruct (uploading st); [done|]. unfold handleSubmit.
    destruct (file_ st) eqn:E; cbn; rewrite ?E; done.
  - destruct (outstanding st !! i); [|done]. by destruct o.
Qed.

(** Whatever is dropped or chosen, the file the form holds has passed
    validation, so every upload request carries a valid file; and a
    rejected file leaves the form with no file and a message. *)
Theorem selected_file_valid (evs : list event) :
  (∀ f, file_ (exec initial evs) = Some f → validateFile f = None)
  ∧ (∀ f msg, validateFile f = Some msg →
       file_ (step (exec initial evs) (Drop (Some f))) = None
       ∧ error (step (exec initial evs) (Drop (Some f))) = msg).
Proof.
  split.
  - assert (H0 : ∀ g, file_ initial = Some g → validateFile g = None) by done.
    revert H0. generalize initial.
    induction evs as [|ev evs IH]; intros st Hst; [done|].
    cbn. by apply IH, step_valid.
  - intros f msg Hf. cbn. unfold handleFile. by rewrite Hf.
Qed.

Lemma upload_in_step_step (st : form) (ev : event) :
  in_step st → in_step (step st ev).
Proof.
  unfold in_step. destruct st as [fl nm sk dr up er out cr]. cbn. intros Hst.
  destruct ev as [f|f| | |v|v| |i o]; cbn.
  - destruct f as [f|]; [|done]. unfold handleDrop, handleFile.
    destruct (validateFile f); cbn; exact Hst.
  - destruct f as [f|]; [|done]. unfold handleInputChange, handleFile.
    destruct (validateFile f); cbn; exact Hst.
  - done.
  - done.
  - by destruct up.
  - by destruct up.
  - destruct up; [done|]. unfold handleSubmit. cbn.
    destruct fl; cbn; [|done].
    destruct out, cr; cbn in *; done || lia.
  - destruct (out !! i) as [rq|] eqn:Hi; [|done].
    apply lookup_lt_Some in Hi.
    assert (up = true) as -> by (destruct up; [done | lia]).
    assert (length (delete i out) = 0 ∧ length cr = 0) as [Hd Hc].
    { rewrite length_delete by (apply lookup_lt_is_Some_2; lia). lia. }
    destruct o; cbn; rewrite ?length_app; cbn; lia.
Qed.

(** One mounted form has at most one upload outstanding and hands at
    most one session id to [onSessionCreated]: [uploading] blocks the
    submit button while an upload is outstanding and is not reset after
    a success. *)
Theorem upload_single_flight (evs : list event) :
  let st := exec initial evs in
  (length (outstanding st) + length (created st) ≤ 1)%nat
  ∧ (uploading st = false → outstanding st = [] ∧ created st = [])
  ∧ (created st ≠ [] → uploading st = true ∧ outstanding st = []).
Proof.
  assert (H : in_step (exec initial evs)).
  { assert (H0 : in_step initial) by done.
    revert H0. generalize initial.
    induction evs as [|ev evs IH]; intros st Hst; [done|].
    cbn. by apply IH, upload_in_step_step. }
  cbn zeta. unfold in_step in H.
  destruct (uploading (exec initial evs)).
  - split; [lia|]. split; [done|]. intros Hc. split; [done|].
    destruct (created (exec initial evs)); [done|].
    cbn in H. apply nil_length_inv. lia.
  - assert (length (outstanding (exec initial evs)) = 0
            ∧ length (created (exec initial evs)) = 0) as [H1 H2] by lia.
    apply nil_length_inv in H1, H2. rewrite H1, H2. cbn.
    split; [lia|]. by split.
Qed.

(** Submitting without a file does nothing.  With a file, the form
    clears its error, sets [uploading], and sends the video with the
    name and the skill level as parts of the body exactly when they are
    not empty. *)
Theorem submit_request (st : form) :
  uploading st = false →
  (file_ st = None → step st Submit = st)
  ∧ (∀ f, file_ st = Some f →
       let st' := step st Submit in
       uploading st' = true ∧ error st' = "" ∧ file_ st' = Some f
       ∧ ∃ rq, outstanding st' = outstanding st ++ [rq]
          ∧ formData (req_file rq) (req_name rq) (req_skill rq)
            = [("video", Blob f)]
              ++ (if String.eqb (surferName st) "" then []
                  else [("surfer_name", Text (surferName st))])
              ++ (if String.eqb (skillLevel st) "" then []
                  else [("skill_level", Text (skillLevel st))])).
Proof.
  intros Hup. split.
  - intros Hf. cbn. rewrite Hup. unfold handleSubmit. by rewrite Hf.
  - intros f Hf. cbn. rewrite Hup. unfold handleSubmit. rewrite Hf. cbn.
    repeat split. eexists. split; [reflexivity|]. cbn.
    unfold formData, or_null, append_if.
    destruct (String.eqb (surferName st) "") eqn:E1;
      destruct (String.eqb (skillLevel st) "") eqn:E2; cbn;
      rewrite ?E1, ?E2; done.
Qed.

Lemma submit_request_witness :
  let st := exec initial [Choose (Some (File "wave.mp4" 1000)); TypeName "Kai"] in
  uploading (step st Submit) = true
  ∧ outstanding (step st Submit)
    = [Request (File "wave.mp4" 1000) (Some "Kai") None].
Proof.
  intros st.
  pose proof (proj2 (submit_request st eq_refl) (File "wave.mp4" 1000) eq_refl)
    as (H1 & _ & _ & _).
  split; [exact H1 | reflexivity].
Defined.

End Upload.

(** ** Metric names *)

Section MetricName.
Import Js ErrorCard.

Lemma replace_underscores_length (s : string) :
  String.length (replace_underscores s) = String.length s.
Proof. induction s as [|c s IH]; [done|]. cbn. by rewrite IH. Qed.

Lemma capitalize_length (b : bool) (s : string) :
  String.length (capitalize b s) = String.length s.
Proof. revert b. induction s as [|c s IH]; intros b; [done|]. cbn. by rewrite IH. Qed.

Lemma replace_underscores_clean (s : string) :
  has_underscore (replace_underscores s) = false.
Proof.
  induction s as [|c s IH]; [done|]. cbn. rewrite IH.
  destruct (Ascii.eqb c "_") eqn:E; [done|]. by rewrite E.
Qed.

Lemma replace_underscores_id (s : string) :
  has_underscore s = false → replace_underscores s = s.
Proof.
  induction s as [|c s IH]; [done|]. cbn.
  intros [Hc Hs]%orb_false_iff. by rewrite Hc, IH.
Qed.

Lemma capital_char (b : bool) (c : ascii) :
  let c' := if is_word c && negb b then upper c else c in
  is_word c' = is_word c
  ∧ Ascii.eqb c' "_" = Ascii.eqb c "_"
  ∧ (if is_word c' && negb b then upper c' else c') = c'.
Proof.
  destruct b; destruct c as [[] [] [] [] [] [] [] []]; vm_compute; done.
Qed.

Lemma capitalize_underscore (b : bool) (s : string) :
  has_underscore (capitalize b s) = has_underscore s.
Proof.
  revert b. induction s as [|c s IH]; intros b; [done|]. cbn.
  destruct (capital_char b c) as (_ & -> & _). by rewrite IH.
Qed.

Lemma capitalize_idempotent (b : bool) (s : string) :
  capitalize b (capitalize b s) = capitalize b s.
Proof.
  revert b. induction s as [|c s IH]; intros b; [done|]. cbn [capitalize].
  destruct (capital_char b c) as (Hw & _ & Hc). cbn zeta in *.
  rewrite Hc, Hw, IH. done.
Qed.

(** The display name of a metric has the length of the metric's
    identifier and no underscore, and formatting it again changes
    nothing. *)
Theorem formatMetricName_shape (metric : string) :
  String.length (formatMetricName metric) = String.length metric
  ∧ has_underscore (formatMetricName metric) = false
  ∧ formatMetricName (formatMetricName metric) = formatMetricName metric.
Proof.
  unfold formatMetricName. split; [|split].
  - by rewrite capitalize_length, replace_underscores_length.
  - by rewrite capitalize_underscore, replace_underscores_clean.
  - rewrite (replace_underscores_id (capitalize false _)).
    + apply capitalize_idempotent.
    + by rewrite capitalize_underscore, replace_underscores_clean.
Qed.

Example formatMetricName_knee :
  formatMetricName "left_knee_angle" = "Left Knee Angle".
Proof. reflexivity. Qed.

End MetricName.

(** ** Session poller: cancellation, schedules, remounting *)

Section PollerRuns.
Import ProcessingScreen.

Lemma teardown_is_final_witness :
  let data := Session "a" "completed" [] in
  calls (exec (step (exec rendered [Effect "a"; Tick 0]) Cleanup)
              [Settle 0 (Resolved data); Tick 1; Cleanup])
  = [].
Proof.
  intros data.
  apply (teardown_is_final (exec rendered [Effect "a"; Tick 0])
           [Settle 0 (Resolved data); Tick 1; Cleanup]).
  repeat constructor.
Defined.

Lemma undisturbed_calls_once_witness :
  let data := Session "a" "failed" [] in
  let c := exec (mount "a")
             [Tick 7; Settle 3 (Resolved data); Tick 0; Tick 0;
              Settle 0 (Resolved data); Settle 0 (Resolved data); Tick 1] in
  calls c = [] ∨ (∃ k, calls c = [(0, k)]) ∧ quiescent c.
Proof.
  intros data.
  apply (undisturbed_calls_once "a"). repeat constructor.
Defined.

Lemma answer_scheduled (f : closure) (c : component) (o : outcome) :
  scheduled f c →
  answer c o =
    poll_resume f o
      {| cancelledRef := false; effects := effects c;
         initialDelay := initialDelay c;
         timers := ∅; next_timer := next_timer c;
         requests := ∅; next_request := S (next_request c);
         calls := calls c |}.
Proof.
  destruct c as [cr ef ini tms nt rqs nr cs].
  intros (Hc & (t & d & Ht) & Hr). cbn in *. subst.
  set (c := Component false ef ini {[t := Timer d f]} nt ∅ nr cs).
  assert (Htick : step c (Tick t) =
            Component false ef ini ∅ nt {[nr := f]} (S nr) cs).
  { unfold step, c. cbn [timers]. rewrite lookup_singleton_eq.
    unfold poll, take_timer, issue. cbn.
    by rewrite delete_singleton_eq, insert_empty. }
  unfold answer. unfold c at 1. cbn [timers].
  rewrite map_to_list_singleton. cbn [head fmap option_fmap option_map fst].
  rewrite Htick. cbn [requests].
  rewrite map_to_list_singleton. cbn [head fmap option_fmap option_map fst].
  unfold step. cbn [requests]. rewrite lookup_singleton_eq.
  unfold take_request. cbn. by rewrite delete_singleton_eq.
Qed.

Lemma in_progress_verdict (o : outcome) : in_progress o → verdict o = None.
Proof.
  destruct o as [data|msg]; [|done]. cbn. by intros [-> | ->].
Qed.

Lemma answer_verdict (f : closure) (c : component) (o : outcome) :
  scheduled f c →
  match verdict o with
  | None => scheduled f (answer c o) ∧ calls (answer c o) = calls c
  | Some k => quiescent (answer c o) ∧ calls (answer c o) = calls c ++ [(run f, k)]
  end.
Proof.
  intros Hs. rewrite (answer_scheduled f) by done.
  destruct o as [data|msg]; cbn.
  - destruct (String.eqb (status data) "completed"); [done|].
    destruct (String.eqb (status data) "failed"); [done|].
    split; [|done]. split; [done|]. split; [|done].
    cbn. rewrite insert_empty. by eexists _, _.
  - done.
Qed.

Lemma feed_scheduled (f : closure) (c : component) (os : list outcome) :
  scheduled f c → Forall in_progress os →
  scheduled f (feed c os) ∧ calls (feed c os) = calls c.
Proof.
  intros Hs Hos. revert c Hs.
  induction Hos as [|o os Ho _ IH]; intros c Hs; [done|].
  change (feed c (o :: os)) with (feed (answer c o) os).
  pose proof (answer_verdict f c o Hs) as Ha.
  rewrite in_progress_verdict in Ha by done. destruct Ha as [Hs' Hc'].
  destruct (IH _ Hs') as [? ->]. by split.
Qed.

Lemma feed_verdict (f : closure) (c : component)
    (os : list outcome) (o : outcome) (k : call) (rest : list outcome) :
  scheduled f c → Forall in_progress os → verdict o = Some k →
  calls (feed c (os ++ o :: rest)) = calls c ++ [(run f, k)]
  ∧ quiescent (feed c (os ++ o :: rest)).
Proof.
  intros Hs Hos Hk. rewrite feed_app.
  destruct (feed_scheduled f c os Hs Hos) as [Hs' Hc'].
  cbn [feed fold_left].
  pose proof (answer_verdict f _ o Hs') as Ha. rewrite Hk in Ha.
  destruct Ha as [Hq Hc].
  fold (feed (answer (feed c os) o) rest).
  rewrite feed_quiescent by done. by rewrite Hc, Hc'.
Qed.

(** When the effect is cleaned up before its first poll and runs again
    (React's strict mode on mount, or a session id that changes within
    the initial delay), the first run's timer is cleared and the second
    run polls alone: one callback, from run 1, for the new session id. *)
Theorem remount_polls_once (sid0 sid : string)
    (os : list outcome) (o : outcome) (k : call) (rest : list outcome) :
  Forall in_progress os → verdict o = Some k →
  let c0 := exec rendered [Effect sid0; Cleanup; Effect sid] in
  timers c0 = {[ 1 := Timer 1500 (Closure 1 sid) ]}
  ∧ calls (feed c0 os) = []
  ∧ calls (feed c0 (os ++ o :: rest)) = [(1, k)]
  ∧ quiescent (feed c0 (os ++ o :: rest)).
Proof.
  intros Hos Hk c0.
  assert (Ht : timers c0 = {[ 1 := Timer 1500 (Closure 1 sid) ]}).
  { subst c0. by vm_compute. }
  assert (Hs : scheduled (Closure 1 sid) c0).
  { split; [done|]. split; [|done]. by eexists _, _. }
  split; [done|]. split.
  - by destruct (feed_scheduled _ c0 os Hs Hos) as [_ ->].
  - exact (feed_verdict (Closure 1 sid) c0 os o k rest Hs Hos Hk).
Qed.

Lemma remount_polls_once_witness :
  let busy := Session "abc" "processing" [] in
  let data := Session "abc" "completed" [] in
  calls (feed (exec rendered [Effect "abc"; Cleanup; Effect "abc"])
           ([Resolved busy] ++ Resolved data :: []))
  = [(1, OnComplete data)].
Proof.
  intros busy data.
  assert (H : Forall in_progress [Resolved busy]).
  { repeat constructor; right; reflexivity. }
  exact (proj1 (proj2 (proj2
    (remount_polls_once "abc" "abc" [Resolved busy] (Resolved data)
       (OnComplete data) [] H eq_refl)))).
Defined.

End PollerRuns.

(** ** Session poller: one poll per run, whatever happens *)

Section PollerTables.
Import ProcessingScreen.

#[local] Open Scope nat_scope.

Section Counting.
Context {A : Type} (P : A → Prop) `{!∀ x, Decision (P x)}.

Lemma count_insert_fresh (m : gmap nat A) (i : nat) (x : A) :
  m !! i = None →
  count P (<[i:=x]> m) = if decide (P x) then S (count P m) else count P m.
Proof.
  intros Hi. unfold count. rewrite map_filter_insert. cbn.
  destruct (decide (P x)).
  - rewrite map_size_insert_None; [done|].
    apply map_lookup_filter_None. by left.
  - by rewrite delete_id.
Qed.

Lemma count_delete (m : gmap nat A) (i : nat) (x : A) :
  m !! i = Some x →
  count P m = if decide (P x) then S (count P (delete i m))
              else count P (delete i m).
Proof.
  intros Hi. rewrite <- (insert_id m i x) at 1 by done.
  rewrite <- insert_delete_eq.
  apply count_insert_fresh, lookup_delete_eq.
Qed.

Lemma count_delete_le (m : gmap nat A) (i : nat) :
  (count P (delete i m) ≤ count P m)%nat.
Proof.
  destruct (m !! i) as [x|] eqn:Hi.
  - rewrite (count_delete m i x Hi). destruct (decide (P x)); lia.
  - by rewrite delete_id.
Qed.

Lemma count_none (m : gmap nat A) :
  (∀ i x, m !! i = Some x → ¬ P x) → count P m = 0.
Proof.
  intros Hm. unfold count. apply map_size_empty_iff, map_eq. intros i.
  rewrite lookup_empty. apply map_lookup_filter_None.
  destruct (m !! i) as [x|] eqn:Hi; [right | by left].
  intros y [= <-]. by apply (Hm i).
Qed.

End Counting.

Lemma pending_unfold (r : nat) (c : component) :
  pending r c =
    count (λ tm : timer, run (callback tm) = r) (timers c)
    + count (λ f : closure, run f = r) (requests c).
Proof. reflexivity. Qed.

Lemma pending_fresh_run (c : component) (r : nat) :
  well_formed c → effects c ≤ r → pending r c = 0.
Proof.
  intros (Ht & Hq & _) Hr. rewrite pending_unfold.
  rewrite !count_none; [done| |].
  - intros q f Hf. apply Hq in Hf. lia.
  - intros t tm Htm. apply Ht in Htm. lia.
Qed.

Lemma well_formed_effect (sid : string) (c : component) :
  well_formed c → well_formed (effect sid c).
Proof.
  intros Hwf. pose proof Hwf as (Ht & Hq & Hp).
  destruct c as [cr ef ini tms nt rqs nr cs]. cbn in *.
  assert (Hfresh : tms !! nt = None).
  { destruct (tms !! nt) as [tm|] eqn:E; [|done]. apply Ht in E. lia. }
  split; [|split]; cbn.
  - intros t tm [[<- <-]|[Hne Htm]]%lookup_insert_Some; cbn; [lia|].
    apply Ht in Htm. lia.
  - intros q f Hf. apply Hq in Hf. lia.
  - intros r. rewrite pending_unfold. cbn.
    rewrite count_insert_fresh by done. cbn.
    destruct (decide (ef = r)) as [<-|Hne].
    + pose proof (pending_fresh_run _ ef Hwf (le_n _)) as H0.
      rewrite pending_unfold in H0. cbn in H0. lia.
    + apply (Hp r).
Qed.

Lemma well_formed_cleanup (c : component) :
  well_formed c → well_formed (cleanup c).
Proof.
  intros Hwf. pose proof Hwf as (Ht & Hq & Hp).
  destruct c as [cr ef ini tms nt rqs nr cs]. cbn in *.
  unfold cleanup. cbn. destruct ini as [t0|]; cbn; [|exact Hwf].
  split; [|split]; cbn.
  - intros t tm [_ Htm]%lookup_delete_Some. by apply Ht.
  - done.
  - intros r. specialize (Hp r). rewrite pending_unfold in *. cbn in *.
    pose proof (count_delete_le (λ tm : timer, run (callback tm) = r) tms t0).
    lia.
Qed.

Lemma well_formed_tick (t : nat) (c : component) :
  well_formed c → well_formed (step c (Tick t)).
Proof.
  intros Hwf. pose proof Hwf as (Ht & Hq & Hp).
  destruct c as [cr ef ini tms nt rqs nr cs]. cbn in *.
  destruct (tms !! t) as [tm|] eqn:Htm; [|exact Hwf].
  assert (Hfresh : rqs !! nr = None).
  { destruct (rqs !! nr) as [f|] eqn:E; [|done]. apply Hq in E. lia. }
  unfold poll, take_timer, issue. cbn. destruct cr; cbn.
  - split; [|split]; cbn.
    + intros t' tm' [_ H]%lookup_delete_Some. by apply Ht.
    + done.
    + intros r. specialize (Hp r). rewrite pending_unfold in *. cbn in *.
      pose proof (count_delete_le (λ tm : timer, run (callback tm) = r) tms t).
      lia.
  - split; [|split]; cbn.
    + intros t' tm' [_ H]%lookup_delete_Some. by apply Ht.
    + intros q f [[<- <-]|[Hne Hf]]%lookup_insert_Some.
      * apply Ht in Htm. lia.
      * apply Hq in Hf. lia.
    + intros r. specialize (Hp r). rewrite pending_unfold in *. cbn in *.
      rewrite (count_delete _ tms t tm Htm) in Hp.
      rewrite count_insert_fresh by done.
      destruct (decide (run (callback tm) = r)); lia.
Qed.

Lemma well_formed_settle (q : nat) (o : outcome) (c : component) :
  well_formed c → well_formed (step c (Settle q o)).
Proof.
  intros Hwf. pose proof Hwf as (Ht & Hq & Hp).
  destruct c as [cr ef ini tms nt rqs nr cs]. cbn in *.
  destruct (rqs !! q) as [f|] eqn:Hf; [|exact Hwf].
  assert (Hfresh : tms !! nt = None).
  { destruct (tms !! nt) as [tm|] eqn:E; [|done]. apply Ht in E. lia. }
  assert (Hdrop : well_formed (Component cr ef ini tms nt (delete q rqs) nr cs)).
  { split; [|split]; cbn.
    - done.
    - intros q' f' [_ H]%lookup_delete_Some. by apply Hq.
    - intros r. specialize (Hp r). rewrite pending_unfold in *. cbn in *.
      pose proof (count_delete_le (λ f : closure, run f = r) rqs q). lia. }
  unfold take_request, poll_resume. cbn.
  destruct o as [data|msg]; cbn.
  - destruct cr; [exact Hdrop|].
    destruct (String.eqb (status data) "completed"); [exact Hdrop|].
    destruct (String.eqb (status data) "failed"); [exact Hdrop|].
    split; [|split]; cbn.
    + intros t tm [[<- <-]|[Hne Htm]]%lookup_insert_Some; cbn.
      * apply Hq in Hf. lia.
      * apply Ht in Htm. lia.
    + intros q' f' [_ H]%lookup_delete_Some. by apply Hq.
    + intros r. specialize (Hp r). rewrite pending_unfold in *. cbn in *.
      rewrite (count_delete _ rqs q f Hf) in Hp.
      rewrite count_insert_fresh by done. cbn.
      destruct (decide (run f = r)); lia.
  - destruct cr; exact Hdrop.
Qed.

Lemma well_formed_step (c : component) (ev : event) :
  well_formed c → well_formed (step c ev).
Proof.
  destruct ev as [sid| |t|q o].
  - apply well_formed_effect.
  - apply well_formed_cleanup.
  - apply well_formed_tick.
  - apply well_formed_settle.
Qed.

Lemma well_formed_rendered : well_formed rendered.
Proof.
  split; [|split]; cbn; try done.
  intros r. rewrite pending_unfold. cbn.
  rewrite !count_none; [lia| |]; intros i x; by rewrite lookup_empty.
Qed.

(** However effects, cleanups, timers and settlements interleave, the
    closures of one effect run never have two polls outstanding: a
    timer waiting to poll and a request awaiting its response count
    together for at most one. *)
Theorem one_poll_per_run (evs : list event) (r : nat) :
  (pending r (exec rendered evs) ≤ 1)%nat
  ∧ (effects (exec rendered evs) ≤ r → pending r (exec rendered evs) = 0).
Proof.
  assert (H : well_formed (exec rendered evs)).
  { pose proof well_formed_rendered as H0. revert H0. generalize rendered.
    induction evs as [|ev evs IH]; intros c Hc; [done|].
    cbn. by apply IH, well_formed_step. }
  split; [apply H | by apply pending_fresh_run].
Qed.

End PollerTables.

Section PollerTablesScenarios.
Import ProcessingScreen.

(** The bound is reached: two runs, each with its one poll. *)
Example two_runs_one_poll_each :
  let c := exec rendered
    [Effect "a"; Tick 0; Settle 0 (Resolved (Session "a" "processing" []));
     Cleanup; Effect "b"; Tick 2] in
  pending 0 c = 1 ∧ pending 1 c = 1 ∧ pending 2 c = 0.
Proof. by vm_compute. Qed.

End PollerTablesScenarios.

(** ** Lifecycle controller: what each screen carries, and the whole flow *)

Section LifecycleData.
Import App.

Lemma enabled_completed st data :
  enabled st (Completed data) = true → screen st = processing.
Proof.
  unfold enabled, render. destruct (screen st); try done.
  by destruct (report st).
Qed.

Lemma enabled_reset st : enabled st Reset = true → screen st = results.
Proof.
  unfold enabled, render. destruct (screen st); try done.
Qed.

(** Off the upload screen a session id is set and no error is pending:
    the processing and the results screen are never shown with a stale
    error or without a session, and processing never holds a report. *)
Theorem screen_data (st : state) :
  reachable st →
  (screen st ≠ upload → is_Some (sessionId st) ∧ error st = "")
  ∧ (screen st = processing → report st = None).
Proof.
  intros Hst. split.
  - induction Hst as [|st ev Hst IH Hen]; [done|].
    destruct ev as [id| |data|msg|]; cbn; try done.
    + apply enabled_dismiss in Hen. congruence.
    + intros _. apply enabled_completed in Hen. apply IH. congruence.
  - intros Hp. pose proof (report_invariant st Hst) as Hinv.
    destruct (report st) as [r|]; [|done].
    assert (is_Some (Some r)) as Hs by eauto. apply Hinv in Hs. congruence.
Qed.

Lemma screen_data_witness :
  let st := handle (SessionCreated "abc") (handle (Failed "boom")
              (handle (SessionCreated "old") initial)) in
  reachable st ∧ error st = "" ∧ sessionId st = Some "abc" ∧ report st = None.
Proof.
  intros st.
  assert (Hst : reachable st).
  { repeat (apply reachable_handle; [|reflexivity]). apply reachable_initial. }
  destruct (screen_data st Hst) as [H1 H2].
  split; [exact Hst|]. split; [exact (proj2 (H1 ltac:(discriminate)))|].
  split; [reflexivity | exact (H2 eq_refl)].
Defined.

End LifecycleData.

Section WholeFlow.
Import App ProcessingScreen Flow.

(** From the upload to the outcome: once the form has reported the
    session [id], the controller shows [processing] while the responses
    are unfinished; the first [completed] response puts it on [results]
    with the session's data stored as received; a [failed] response or
    a transport failure puts it back on [upload] with the message. *)
Theorem session_flow_outcome (st : App.state) (id : string)
    (os : list outcome) (o : outcome) (k : call) (rest : list outcome) :
  Forall in_progress os → verdict o = Some k →
  session_flow st id os
    = {| screen := processing; App.sessionId := Some id;
         report := report st; error := "" |}
  ∧ session_flow st id (os ++ o :: rest)
    = match k with
      | OnComplete data =>
          {| screen := results; App.sessionId := Some id;
             report := Some data; error := "" |}
      | OnError msg =>
          {| screen := upload; App.sessionId := Some id;
             report := report st; error := msg |}
      end.
Proof.
  intros Hos Hk. unfold session_flow.
  assert (Hs : scheduled (Closure 0 id) (mount id)).
  { split; [done|]. split; [|done]. by eexists _, _. }
  destruct (feed_scheduled _ _ os Hs Hos) as [_ ->].
  destruct (feed_verdict _ _ os o k rest Hs Hos Hk) as [-> _].
  split; [by destruct st|]. destruct st, k; reflexivity.
Qed.

Lemma session_flow_outcome_witness :
  let busy := Session "abc" "processing" [] in
  let data := Session "abc" "completed" [("analyzed_frames", Js.VNum 42)] in
  session_flow App.initial "abc" ([Resolved busy; Resolved busy] ++ [Resolved data])
  = {| screen := results; App.sessionId := Some "abc";
       report := Some data; error := "" |}.
Proof.
  intros busy data.
  assert (H : Forall in_progress [Resolved busy; Resolved busy]).
  { repeat constructor; right; reflexivity. }
  exact (proj2 (session_flow_outcome App.initial "abc" _ (Resolved data)
                  (OnComplete data) [] H eq_refl)).
Defined.

End WholeFlow.

(** ** Transport client: a [detail] that is not a string *)

Section TransportDetail.
Import Js Api.

Lemma to_string_objects (objs : list (list (string * value))) :
  Forall (λ o, has_own o "toString" = false) objs →
  to_string (VArr (map VObj objs))
  = Fulfilled (join "," (replicate (length objs) "[object Object]")).
Proof.
  intros Hobjs. cbn [to_string].
  match goal with
  | |- match ?els (map VObj objs) with _ => _ end = _ =>
      assert (Hels : els (map VObj objs)
                     = Fulfilled (replicate (length objs) "[object Object]"))
  end.
  { induction Hobjs as [|o objs Ho _ IH]; [done|].
    cbn [map length replicate]. cbn [to_string]. by rewrite Ho, IH. }
  by rewrite Hels.
Qed.

Lemma unprintable_objects (objs : list (list (string * value))) :
  Exists (λ o, has_own o "toString" = true) objs →
  unprintable (VArr (map VObj objs)) = true.
Proof.
  intros Hobjs. cbn [unprintable].
  induction Hobjs as [o objs Ho|o objs _ IH]; cbn [map existsb unprintable].
  - by rewrite Ho.
  - rewrite IH. apply orb_true_r.
Qed.

(** A [detail] that is an array of objects (the shape of the backend
    framework's validation errors) is surfaced through [String]: one
    "[object Object]" per element, joined by commas, and the empty
    message for the empty array, as long as no element has an own
    [toString]; with such an element the conversion throws and the
    caller sees the engine's [TypeError]. *)
Theorem detail_array_message (op : operation) (res : response)
    (fields : list (string * value)) (objs : list (list (string * value))) :
  ok res = false → body res = Some (VObj fields) →
  own fields "detail" = VArr (map VObj objs) →
  (Forall (λ o, has_own o "toString" = false) objs →
   call op (Fulfilled res)
   = Rejected (Error (join "," (replicate (length objs) "[object Object]"))))
  ∧ (Exists (λ o, has_own o "toString" = true) objs →
     call op (Fulfilled res) = Rejected TypeError).
Proof.
  intros Hok Hbody Hown. split.
  - intros Hobjs.
    apply (detail_is_coerced op res (VObj fields) (VArr (map VObj objs)));
      try done.
    + cbn. by rewrite Hown.
    + by apply to_string_objects.
  - intros Hobjs. rewrite call_failure by done.
    unfold json_catch, json. rewrite Hbody. cbn. rewrite Hown.
    unfold or. cbn [truthy]. rewrite throw_new_Error_truthy by done.
    pose proof (to_string_outcome (VArr (map VObj objs))) as Hd.
    rewrite unprintable_objects in Hd by done. by rewrite Hd.
Qed.

Lemma detail_array_message_witness :
  uploadVideo (Fulfilled (Response 422 (Some (VObj
    [("detail", VArr [VObj [("msg", VStr "field required")]; VObj []])]))))
  = Rejected (Error "[object Object],[object Object]")
  ∧ getSession (Fulfilled (Response 422 (Some (VObj [("detail", VArr [])]))))
    = Rejected (Error "")
  ∧ sendChat (Fulfilled (Response 422 (Some (VObj
      [("detail", VArr [VObj []; VObj [("toString", VNull)]])]))))
    = Rejected TypeError.
Proof.
  split; [|split].
  - apply (proj1 (detail_array_message CreateSession
             (Response 422 (Some (VObj
                [("detail", VArr [VObj [("msg", VStr "field required")]; VObj []])])))
             [("detail", VArr [VObj [("msg", VStr "field required")]; VObj []])]
             [[("msg", VStr "field required")]; []]
             eq_refl eq_refl eq_refl)).
    repeat constructor.
  - apply (proj1 (detail_array_message GetSession
             (Response 422 (Some (VObj [("detail", VArr [])])))
             [("detail", VArr [])] [] eq_refl eq_refl eq_refl)).
    constructor.
  - apply (proj2 (detail_array_message SendChatMessage
             (Response 422 (Some (VObj
                [("detail", VArr [VObj []; VObj [("toString", VNull)]])])))
             [("detail", VArr [VObj []; VObj [("toString", VNull)]])]
             [[]; [("toString", VNull)]]
             eq_refl eq_refl eq_refl)).
    right. by left.
Defined.

End TransportDetail.

(** ** Cancellation, as the program drives the poller *)

Section CancellationInApp.
Import ProcessingScreen.










End CancellationInApp.
